(** * bang! — a URL shortener over a list-structured key-value store

    Verification development for the Go program [app.go] (release 1.1.0,
    with the earlier 1.0.0-alpha.1 Create handler kept for comparison).

    The program is embedded shallowly:
    - Go strings and byte slices are [string] / [list ascii] (8-bit bytes);
    - the Valkey server is a finite map from keys to lists of strings, with
      the replies of LINDEX, RPUSH, LSET and DEL written out;
    - the handlers run in a state monad over a [World] made of the store,
      the bytes still to come from [crypto/rand], the trace of store
      commands issued, the lines written with [log.Println], and the
      goroutines spawned and not yet run;
    - Go's [int] is a 64-bit two's complement integer, kept in [Z] with its
      wrap-around written out. *)

From Stdlib Require Import ZArith Lia Ascii String List Bool DecimalString DecimalPos DecimalZ.
From stdpp Require Import base option list gmap strings.

Local Open Scope Z_scope.

(** ** Byte strings *)

Module GoString.

(** [len(s)] *)
Definition len (s : string) : nat := String.length s.

(** [string(bytes)] and [[]byte(s)] *)
Definition of_bytes (bs : list ascii) : string := string_of_list_ascii bs.
Definition to_bytes (s : string) : list ascii := list_ascii_of_string s.

(** every byte of [s] satisfies [p] *)
Definition all (p : ascii → bool) (s : string) : bool :=
  forallb p (to_bytes s).

(** the numeric value of a byte *)
Definition code (c : ascii) : Z := Z.of_N (N_of_ascii c).

Definition in_range (lo hi c : ascii) : bool :=
  (code lo <=? code c) && (code c <=? code hi).

Definition is_lower (c : ascii) : bool := in_range "a" "z" c.
Definition is_upper (c : ascii) : bool := in_range "A" "Z" c.
Definition is_digit (c : ascii) : bool := in_range "0" "9" c.
Definition is_letter (c : ascii) : bool := is_lower c || is_upper c.
Definition is_alnum (c : ascii) : bool := is_letter c || is_digit c.

End GoString.

(** ** The random-string generator *)

(** [const chars = "abc...XYZ0123456789"] *)
Definition chars : string :=
  "abcdefghijklmnopqrstuvwxyzABCDEFGHIJKLMNOPQRSTUVWXYZ0123456789".

(** [chars[i]]; Go panics when [i] is out of range, which is [None] here. *)
Definition chars_at (i : nat) : option ascii := String.get i chars.

(** [b % byte(len(chars))] on a byte [b]; [len(chars)] is 62 and fits a byte. *)
Definition byte_mod_len (b : ascii) : nat :=
  (nat_of_ascii b `mod` GoString.len chars)%nat.

(** One round of the loop [bytes[i] = chars[b%byte(len(chars))]]. The index
    is below [len(chars)] (lemma [chars_at_mod] below), so the default of
    [from_option] is never taken. *)
Definition pick (b : ascii) : ascii :=
  from_option id "000"%char (chars_at (byte_mod_len b)).

(** ** Regular expressions, as much of Go's [regexp] syntax as the pattern of
    [ValidateUrl] uses

    The text is matched byte by byte. Go matches runes, but every literal and
    class of the pattern is ASCII and the pattern is anchored at both ends,
    so a text with a byte above 127 is rejected either way. *)

Module Regexp.

Inductive t :=
| Empty                                   (* the empty pattern *)
| Lit (c : ascii)                         (* a byte, also escaped: \/ \. *)
| Class (ranges : list (ascii * ascii))   (* [a-zA-Z0-9.-] *)
| BeginText                               (* ^ (no flag m) *)
| EndText                                 (* $ (no flag m) *)
| Concat (r1 r2 : t)
| Alternate (r1 r2 : t)                   (* r1|r2 *)
| Repeat (min : nat) (ranges : list (ascii * ascii)).
                                          (* [..]{min,}; [..]+ is {1,} *)

(** a run of literal bytes *)
Fixpoint Str (s : string) : t :=
  match s with
  | EmptyString => Empty
  | String c s' => Concat (Lit c) (Str s')
  end.

(** a concatenation written as a list *)
Fixpoint Seq (rs : list t) : t :=
  match rs with
  | [] => Empty
  | r :: rs' => Concat r (Seq rs')
  end.

Definition class_mem (ranges : list (ascii * ascii)) (c : ascii) : bool :=
  existsb (λ '(lo, hi), GoString.in_range lo hi c) ranges.

(** [rep p min pos s k]: consume [min] or more bytes satisfying [p] from
    [s], which starts at offset [pos] of the text, then continue with [k]. *)
Fixpoint rep (p : ascii → bool) (min : nat) (pos : nat) (s : list ascii)
    (k : nat → list ascii → bool) {struct s} : bool :=
  (match min with O => k pos s | S _ => false end)
  || match s with
     | [] => false
     | c :: s' => p c && rep p (Nat.pred min) (S pos) s' k
     end.

(** Backtracking matcher in continuation-passing style: [run r pos s k] holds
    when [r] matches a prefix of [s] (the text from offset [pos] on) and [k]
    accepts the offset and text left after it. *)
Fixpoint run (r : t) (pos : nat) (s : list ascii)
    (k : nat → list ascii → bool) {struct r} : bool :=
  match r with
  | Empty => k pos s
  | Lit c =>
      match s with
      | c' :: s' => bool_decide (c' = c) && k (S pos) s'
      | [] => false
      end
  | Class ranges =>
      match s with
      | c' :: s' => class_mem ranges c' && k (S pos) s'
      | [] => false
      end
  | BeginText => Nat.eqb pos 0 && k pos s
  | EndText => match s with [] => k pos s | _ :: _ => false end
  | Concat r1 r2 => run r1 pos s (λ pos' s', run r2 pos' s' k)
  | Alternate r1 r2 => run r1 pos s k || run r2 pos s k
  | Repeat min ranges => rep (class_mem ranges) min pos s k
  end.

(** an unanchored search: a match may start at any offset of the text *)
Fixpoint search (r : t) (pos : nat) (s : list ascii) : bool :=
  run r pos s (λ _ _, true)
  || match s with
     | [] => false
     | _ :: s' => search r (S pos) s'
     end.

(** [r.MatchString(str)] *)
Definition MatchString (r : t) (str : string) : bool :=
  search r 0%nat (GoString.to_bytes str).

End Regexp.

(** ** The URL validator *)

Definition host_class : list (ascii * ascii) :=
  [("a", "z"); ("A", "Z"); ("0", "9"); (".", "."); ("-", "-")]%char.

Definition tld_class : list (ascii * ascii) :=
  [("a", "z"); ("A", "Z")]%char.

(** [^http:\/\/[a-zA-Z0-9.-]+\.[a-zA-Z]{2,}$|^https:\/\/[a-zA-Z0-9.-]+\.[a-zA-Z]{2,}$] *)
Definition url_pattern : Regexp.t :=
  Regexp.Alternate
    (Regexp.Seq [Regexp.BeginText; Regexp.Str "http://";
                 Regexp.Repeat 1 host_class; Regexp.Lit ".";
                 Regexp.Repeat 2 tld_class; Regexp.EndText])
    (Regexp.Seq [Regexp.BeginText; Regexp.Str "https://";
                 Regexp.Repeat 1 host_class; Regexp.Lit ".";
                 Regexp.Repeat 2 tld_class; Regexp.EndText]).

(** [func ValidateUrl(str string) bool] *)
Definition ValidateUrl (str : string) : bool :=
  Regexp.MatchString url_pattern str.

(** ** [strconv.Atoi] and [fmt.Sprint] on Go's 64-bit [int] *)

Module GoInt.

Definition min_int : Z := - 2 ^ 63.
Definition max_int : Z := 2 ^ 63 - 1.

(** the value of a Go [int] expression computed in [Z]: two's complement
    wrap-around into [min_int .. max_int] *)
Definition wrap (z : Z) : Z := (z + 2 ^ 63) `mod` 2 ^ 64 - 2 ^ 63.

(** Go's [error]: [None] is [nil] *)
Definition error := option string.

(** [ch -= '0'; if ch > 9 { syntax error }] *)
Definition digit (ch : ascii) : option Z :=
  let d := GoString.code ch - 48 in
  if (0 <=? d) && (d <=? 9) then Some d else None.

(** [n = n*10 + int(ch)] over the digits; [None] at the first byte that is
    no digit *)
Fixpoint digits (n : Z) (s : string) : option Z :=
  match s with
  | EmptyString => Some n
  | String ch s' =>
      match digit ch with
      | Some d => digits (n * 10 + d) s'
      | None => None
      end
  end.

(** what a parse of an unsigned number comes to: a value, or one of the two
    errors of strconv *)
Inductive parsed :=
| Parsed (n : Z)
| ErrSyntax
| ErrRange.

Definition max_uint : Z := 2 ^ 64 - 1.

(** the loop of [strconv.ParseUint(s, 10, 64)], byte by byte: a byte that is
    no digit is a syntax error; a digit that takes the number past
    [max_uint] is a range error, returned at once, whatever follows *)
Fixpoint ParseUint_loop (n : Z) (s : string) : parsed :=
  match s with
  | EmptyString => Parsed n
  | String c s' =>
      match digit c with
      | None => ErrSyntax
      | Some d =>
          if max_uint / 10 + 1 <=? n then ErrRange
          else
            let n1 := n * 10 + d in
            if max_uint <? n1 then ErrRange else ParseUint_loop n1 s'
      end
  end.

(** [strconv.ParseUint(s, 10, 64)] *)
Definition ParseUint (s : string) : parsed :=
  match s with
  | EmptyString => ErrSyntax
  | _ => ParseUint_loop 0 s
  end.

(** [strconv.ParseInt(s, 10, 0)]: a sign is picked off, the rest goes to
    ParseUint; a syntax error yields 0, a number outside [int] (a range
    error of ParseUint, which hands back [max_uint], included) yields the
    nearest bound and a range error *)
Definition ParseInt (s : string) : Z * error :=
  let syntax := Some "invalid syntax" in
  let range := Some "value out of range" in
  match s with
  | EmptyString => (0, syntax)
  | String c rest =>
      let neg := bool_decide (c = "-"%char) in
      let s1 := if bool_decide (c = "+"%char ∨ c = "-"%char) then rest else s in
      match ParseUint s1 with
      | ErrSyntax => (0, syntax)
      | r =>
          let un := if r is Parsed n then n else max_uint in
          if negb neg && (2 ^ 63 <=? un) then (2 ^ 63 - 1, range)
          else if neg && (2 ^ 63 <? un) then (- 2 ^ 63, range)
          else (if neg then - un else un, None)
      end
  end.

(** [strconv.Atoi] where [int] has 64 bits: a text of 1 to 18 bytes takes the
    fast path, which cannot overflow; any other text goes to ParseInt. *)
Definition Atoi (s : string) : Z * error :=
  let syntax := Some "invalid syntax" in
  let sLen := GoString.len s in
  if (0 <? sLen)%nat && (sLen <? 19)%nat then
    match s with
    | EmptyString => (0, syntax)
    | String c rest =>
        let signed := bool_decide (c = "-"%char ∨ c = "+"%char) in
        let s1 := if signed then rest else s in
        if signed && (GoString.len s1 <? 1)%nat then (0, syntax)
        else
          match digits 0 s1 with
          | None => (0, syntax)
          | Some n => (if bool_decide (c = "-"%char) then - n else n, None)
          end
    end
  else ParseInt s.

(** [fmt.Sprint(n)] for an [int]: its decimal numeral, with [-] when
    negative *)
Definition Sprint (n : Z) : string := NilZero.string_of_int (Z.to_int n).

End GoInt.

(** ** The store: a Valkey server holding lists

    The server is taken to be reachable: a reply is what the command yields
    on the lists held, and no command is lost in transit. LINDEX on an
    absent key or position replies nil, LSET on one replies an error; RPUSH
    of one or more elements and DEL always succeed, so the handlers' branches
    for their failure are written out below but never taken. *)

Inductive Cmd :=
| LINDEX (key : string) (index : Z)
| RPUSH (key : string) (elements : list string)
| LSET (key : string) (index : Z) (element : string)
| DEL (key : string).

Inductive Reply :=
| RString (s : string)
| RInteger (n : Z)
| RNil
| ROK
| RError (msg : string).

(** the offset a list index denotes; a negative index counts from the tail *)
Definition list_offset {A} (l : list A) (index : Z) : option nat :=
  let n := Z.of_nat (length l) in
  let i := if index <? 0 then n + index else index in
  if (0 <=? i) && (i <? n) then Some (Z.to_nat i) else None.

(** what the server replies to a command, and the store it leaves *)
Definition serve (c : Cmd) (db : gmap string (list string))
    : Reply * gmap string (list string) :=
  match c with
  | LINDEX key index =>
      match db !! key with
      | None => (RNil, db)
      | Some l =>
          match list_offset l index with
          | Some i => (from_option RString RNil (l !! i), db)
          | None => (RNil, db)
          end
      end
  | RPUSH key elements =>
      match elements with
      | [] => (RError "ERR wrong number of arguments for 'rpush' command", db)
      | _ :: _ =>
          let l := default [] (db !! key) ++ elements in
          (RInteger (Z.of_nat (length l)), <[key := l]> db)
      end
  | LSET key index element =>
      match db !! key with
      | None => (RError "ERR no such key", db)
      | Some l =>
          match list_offset l index with
          | Some i => (ROK, <[key := <[i := element]> l]> db)
          | None => (RError "ERR index out of range", db)
          end
      end
  | DEL key =>
      (RInteger (if db !! key is Some _ then 1 else 0), delete key db)
  end.

(** ** The world the handlers run in *)

Record World := mkWorld {
  store : gmap string (list string);   (* the server's keys *)
  entropy : list ascii;                (* bytes crypto/rand will deliver *)
  trace : list Cmd;                    (* commands sent, oldest first *)
  logged : list string;                (* lines of log.Println *)
  spawned : list string                (* slugs captured by the goroutines
                                          started and not yet run *)
}.

Definition M (A : Type) : Type := World → A * World.

#[global] Instance M_ret : MRet M := λ A a w, (a, w).
#[global] Instance M_bind : MBind M :=
  λ A B f m w, let '(a, w') := m w in f a w'.

(** [client.Do(ctx, cmd)] *)
Definition Do (c : Cmd) : M Reply := λ w,
  let '(r, db) := serve c (store w) in
  (r, mkWorld db (entropy w) (trace w ++ [c]) (logged w) (spawned w)).

(** [log.Println(line)] *)
Definition Println (line : string) : M unit := λ w,
  (tt, mkWorld (store w) (entropy w) (trace w) (logged w ++ [line]) (spawned w)).

(** [go func() { ... }()] for the closure of Resolve, which captures [slug].

    The goroutine is kept with the slug as it reads at the start. The string
    comes from [c.Params], which shares the bytes of the request context,
    and the server uses that context again for a later request: this is the
    goroutine as long as it runs before the context is used again, or the
    later request carries the same slug. What a goroutine does once other
    bytes stand in its slug is outside this development. *)
Definition go (slug : string) : M unit := λ w,
  (tt, mkWorld (store w) (entropy w) (trace w) (logged w) (spawned w ++ [slug])).

(** [rand.Read(bytes)] on a slice of length [n]: the next [n] bytes of the
    source, or an error when the source cannot deliver them *)
Definition rand_Read (n : nat) : M (list ascii * GoInt.error) := λ w,
  if (n <=? length (entropy w))%nat then
    ((take n (entropy w), None),
     mkWorld (store w) (drop n (entropy w)) (trace w) (logged w) (spawned w))
  else ((replicate n "000"%char, Some "entropy source unavailable"), w).

(** [result.ToString()]: a nil reply and an error reply are errors *)
Definition ToString (r : Reply) : string * GoInt.error :=
  match r with
  | RString s => (s, None)
  | RNil => ("", Some "valkey nil message")
  | RError msg => ("", Some msg)
  | RInteger _ | ROK => ("", Some "valkey message is not a string")
  end.

(** [result.Error()] *)
Definition ReplyError (r : Reply) : GoInt.error :=
  match r with
  | RNil => Some "valkey nil message"
  | RError msg => Some msg
  | RString _ | RInteger _ | ROK => None
  end.

(** [func RandStr(n int) (string, error)] *)
Definition RandStr (n : nat) : M (string * GoInt.error) :=
  '(bytes, err) ← rand_Read n;
  if err is Some e then mret ("", Some e)
  else mret (GoString.of_bytes (pick <$> bytes), None).

(** ** What a handler hands back to fiber *)

Inductive Response :=
| JSON (fields : list (string * string))   (* c.JSON(fiber.Map{...}) *)
| Redirect (location : string)             (* c.Redirect().To(location) *)
| SendString (body : string)               (* c.SendString(body) *)
| SendStatus (status : Z)                  (* c.SendStatus(status) *)
| Error (code : Z) (message : string).     (* return fiber.NewError(...) *)

Definition StatusOK : Z := 200.
Definition StatusBadRequest : Z := 400.
Definition StatusUnauthorized : Z := 401.
Definition StatusInternalServerError : Z := 500.

(** [fiber.NewError(code, message)] *)
Definition NewError (code : Z) (message : string) : Response :=
  Error code message.

(** [fiber.NewError(code)]: the message is the status text of [code] *)
Definition NewError0 (code : Z) : Response :=
  Error code (if code =? 401 then "Unauthorized" else "").

(** ** The handlers of release 1.1.0 *)

(** [app.Post("/new", ...)], with [url] the value of [c.Query("url")] *)
Definition Create (url : string) : M Response :=
  let redirect := url in
  if bool_decide (redirect = "") then
    mret (NewError StatusBadRequest "missing url query parameter")
  else if negb (ValidateUrl redirect) then
    mret (NewError StatusBadRequest
            "invalid url, please add http:// or https://")
  else
    '(slug, err) ← RandStr 5;
    let slug := "!" +:+ slug in
    if err is Some _ then
      mret (NewError StatusInternalServerError
              "failed to generate random string")
    else
      '(key, err) ← RandStr 64;
      if err is Some _ then
        mret (NewError StatusInternalServerError
                "failed to generate admin key")
      else
        r ← Do (RPUSH slug [redirect; key; GoInt.Sprint 0]);
        if ReplyError r is Some _ then
          mret (NewError StatusInternalServerError
                  "failed to register redirect")
        else mret (JSON [("slug", slug); ("key", key)]).

(** the body of the goroutine that Resolve starts *)
Definition increment (slug : string) : M unit :=
  r ← Do (LINDEX slug 2);
  let '(val, err) := ToString r in
  if err is Some _ then
    Println ("Failed to get clicks counter for" +:+ slug)
  else
    let '(valint, _) := GoInt.Atoi val in
    r ← Do (LSET slug 2 (GoInt.Sprint (GoInt.wrap (valint + 1))));
    if ReplyError r is Some _ then
      Println ("Failed to increment counter for" +:+ slug)
    else mret tt.

(** [app.Get("/:slug", ...)], with [slug] the value of [c.Params("slug")] *)
Definition Resolve (slug : string) : M Response :=
  if bool_decide (slug = "" ∨ slug = "!") then
    mret (NewError StatusBadRequest "missing slug")
  else
    r ← Do (LINDEX slug 0);
    let '(val, err) := ToString r in
    if bool_decide (is_Some err ∨ val = "") then
      mret (NewError StatusBadRequest "failed to retrieve redirect")
    else
      _ ← go slug;
      mret (Redirect val).

(** [app.Get("/clicks/:slug", ...)], with [key] the value of [c.Query("key")] *)
Definition Stats (slug key : string) : M Response :=
  if bool_decide (slug = "" ∨ slug = "!") then
    mret (NewError StatusBadRequest "missing slug")
  else if bool_decide (key = "") then
    mret (NewError StatusBadRequest "missing key from query params")
  else
    r ← Do (LINDEX slug 1);
    let '(field, err) := ToString r in
    if err is Some _ then
      mret (NewError StatusBadRequest "failed to check admin key")
    else if bool_decide (field ≠ key) then
      mret (NewError0 StatusUnauthorized)
    else
      r ← Do (LINDEX slug 2);
      let '(val, err) := ToString r in
      if err is Some _ then
        mret (NewError StatusInternalServerError "failed to get statistics")
      else mret (SendString val).

(** [app.Delete("/:slug", ...)] *)
Definition Delete (slug key : string) : M Response :=
  if bool_decide (slug = "" ∨ slug = "!") then
    mret (NewError StatusBadRequest "missing slug")
  else if bool_decide (key = "") then
    mret (NewError StatusBadRequest "missing key from query params")
  else
    r ← Do (LINDEX slug 0);
    let '(val, err) := ToString r in
    if bool_decide (is_Some err ∨ val = "") then
      mret (NewError StatusBadRequest "failed to retrieve redirect")
    else
      r ← Do (LINDEX slug 1);
      let '(field, err) := ToString r in
      if err is Some _ then
        mret (NewError StatusBadRequest "failed to check admin key")
      else if bool_decide (field ≠ key) then
        mret (NewError0 StatusUnauthorized)
      else
        r ← Do (DEL slug);
        if bool_decide (is_Some (ReplyError r) ∨ val = "") then
          mret (NewError StatusInternalServerError
                  "failed to delete redirect")
        else mret (SendStatus StatusOK).

(** ** The Create handler of release 1.0.0-alpha.1

    It pushes two elements: the record has no click counter. *)
Definition Create_alpha (url : string) : M Response :=
  let redirect := url in
  if bool_decide (redirect = "") then
    mret (NewError StatusBadRequest "missing url query parameter")
  else if negb (ValidateUrl redirect) then
    mret (NewError StatusBadRequest
            "invalid url, please add http:// or https://")
  else
    '(slug, err) ← RandStr 5;
    let slug := "!" +:+ slug in
    if err is Some _ then
      mret (NewError StatusInternalServerError
              "failed to generate random string")
    else
      '(key, err) ← RandStr 64;
      if err is Some _ then
        mret (NewError StatusInternalServerError
                "failed to generate admin key")
      else
        r ← Do (RPUSH slug [redirect; key]);
        if ReplyError r is Some _ then
          mret (NewError StatusInternalServerError
                  "failed to register redirect")
        else mret (JSON [("slug", slug); ("key", key)]).

(** The Delete handler of release 1.0.0-alpha.1: no guard on an empty key,
    and the answer names the target. *)
Definition Delete_alpha (slug key : string) : M Response :=
  if bool_decide (slug = "" ∨ slug = "!") then
    mret (NewError StatusBadRequest "missing slug")
  else
    r ← Do (LINDEX slug 0);
    let '(val, err) := ToString r in
    if bool_decide (is_Some err ∨ val = "") then
      mret (NewError StatusBadRequest "failed to retrieve redirect")
    else
      r ← Do (LINDEX slug 1);
      let '(field, err) := ToString r in
      if err is Some _ then
        mret (NewError StatusBadRequest "failed to check admin key")
      else if bool_decide (field ≠ key) then
        mret (NewError0 StatusUnauthorized)
      else
        r ← Do (DEL slug);
        if bool_decide (is_Some (ReplyError r) ∨ val = "") then
          mret (NewError StatusInternalServerError
                  "failed to delete redirect")
        else mret (SendString ("deleted redirect for " +:+ val)).

(** ** Running the program *)

(** The scheduler lets the oldest goroutine not yet run go to completion. *)
Definition run_goroutine : M unit := λ w,
  match spawned w with
  | [] => (tt, w)
  | slug :: rest =>
      increment slug
        (mkWorld (store w) (entropy w) (trace w) (logged w) rest)
  end.

(** The goroutine started last runs to completion. *)
Definition run_newest : M unit := λ w,
  match reverse (spawned w) with
  | [] => (tt, w)
  | slug :: rest =>
      increment slug
        (mkWorld (store w) (entropy w) (trace w) (logged w) (reverse rest))
  end.

(** A Resolve and the goroutine it started, run one after the other: the
    schedule in which nothing else touches the store in between. *)
Definition Resolve_sync (slug : string) : M Response :=
  resp ← Resolve slug;
  match resp with
  | Redirect _ => _ ← run_newest; mret resp
  | _ => mret resp
  end.

Inductive Request :=
| ReqCreate (url : string)
| ReqResolve (slug : string)
| ReqStats (slug key : string)
| ReqDelete (slug key : string).

Definition handle (q : Request) : M Response :=
  match q with
  | ReqCreate url => Create url
  | ReqResolve slug => Resolve slug
  | ReqStats slug key => Stats slug key
  | ReqDelete slug key => Delete slug key
  end.

(** what happens next: a request comes in, or the scheduler runs a goroutine *)
Inductive Event :=
| Incoming (q : Request)
| Scheduled.

Definition step (e : Event) : M (option Response) :=
  match e with
  | Incoming q => resp ← handle q; mret (Some resp)
  | Scheduled => _ ← run_goroutine; mret None
  end.

(** the responses given to a list of events, and the world after them *)
Fixpoint steps (es : list Event) : M (list (option Response)) :=
  match es with
  | [] => mret []
  | e :: es' =>
      resp ← step e;
      resps ← steps es';
      mret (resp :: resps)
  end.

(** the program right after start: an empty store, nothing sent or logged *)
Definition boot (tape : list ascii) : World := mkWorld ∅ tape [] [] [].

(** ** Vocabulary of the specification *)

(** a byte of the 62-character alphabet *)
Definition in_alphabet (c : ascii) : Prop := c ∈ GoString.to_bytes chars.

(** the slug format: the sentinel, then five bytes of the alphabet *)
Definition slug_ok (slug : string) : bool :=
  match slug with
  | String "!" rest =>
      Nat.eqb (GoString.len rest) 5 && GoString.all GoString.is_alnum rest
  | _ => false
  end.

(** the admin key format: 64 bytes of the alphabet *)
Definition key_ok (key : string) : bool :=
  Nat.eqb (GoString.len key) 64 && GoString.all GoString.is_alnum key.

(** a record as Create leaves it: a valid target at position 0 and an admin
    key at position 1, under a slug of the slug format *)
Definition record_ok (slug : string) (l : list string) : bool :=
  match l with
  | url :: key :: _ => slug_ok slug && ValidateUrl url && key_ok key
  | _ => false
  end.

(** every list of the store is a record as Create leaves it *)
Definition store_ok (db : gmap string (list string)) : Prop :=
  ∀ slug l, db !! slug = Some l → record_ok slug l = true.

(** the slugs handed out by the Create responses among [resps] *)
Definition created_slugs (resps : list (option Response)) : list string :=
  resps ≫= λ resp,
    match resp with
    | Some (JSON fields) => (fields ≫= λ '(name, v),
                               if bool_decide (name = "slug") then [v] else [])
    | _ => []
    end.

(** the commands a computation sent, given the worlds before and after it *)
Definition sent (w w' : World) : list Cmd := drop (length (trace w)) (trace w').

(** The URL format in the words of the specification: scheme [http] or
    [https], the literal [://], a host of one or more alphanumerics, hyphens
    and dots, a dot, a top-level label of two or more letters, and nothing
    after it. *)
Definition host_char (c : ascii) : bool :=
  GoString.is_alnum c || bool_decide (c = "-"%char) || bool_decide (c = "."%char).

Definition spec_valid_url (s : string) : Prop :=
  ∃ scheme host tld : string,
    s = scheme +:+ "://" +:+ host +:+ "." +:+ tld
    ∧ (scheme = "http" ∨ scheme = "https")
    ∧ (1 ≤ GoString.len host)%nat ∧ GoString.all host_char host = true
    ∧ (2 ≤ GoString.len tld)%nat ∧ GoString.all GoString.is_letter tld = true.

(** ** What a regular expression denotes

    [den r pos m rest]: [r] matches the bytes [m] found at offset [pos] of
    the text and followed by [rest]. *)
Fixpoint den (r : Regexp.t) (pos : nat) (m rest : list ascii) : Prop :=
  match r with
  | Regexp.Empty => m = []
  | Regexp.Lit c => m = [c]
  | Regexp.Class ranges => ∃ c, m = [c] ∧ Regexp.class_mem ranges c = true
  | Regexp.BeginText => m = [] ∧ pos = 0%nat
  | Regexp.EndText => m = [] ∧ rest = []
  | Regexp.Concat r1 r2 =>
      ∃ m1 m2, m = m1 ++ m2 ∧ den r1 pos m1 (m2 ++ rest)
               ∧ den r2 (pos + length m1)%nat m2 rest
  | Regexp.Alternate r1 r2 => den r1 pos m rest ∨ den r2 pos m rest
  | Regexp.Repeat min ranges =>
      (min ≤ length m)%nat ∧ forallb (Regexp.class_mem ranges) m = true
  end.

(** ** Reading the world *)

(** the world after the commands [cs] were sent and left the store as [db] *)
Definition after_cmds (cs : list Cmd) (db : gmap string (list string))
    (w : World) : World :=
  mkWorld db (entropy w) (trace w ++ cs) (logged w) (spawned w).

(** the element a record holds at a position, if the record and the
    position exist *)
Definition field (db : gmap string (list string)) (slug : string) (i : nat)
    : option string :=
  db !! slug ≫= λ l, l !! i.

(** the slug and the admin key Create derives from the next bytes of the
    random source *)
Definition next_slug (tape : list ascii) : string :=
  "!" +:+ GoString.of_bytes (pick <$> take 5 tape).

Definition next_key (tape : list ascii) : string :=
  GoString.of_bytes (pick <$> take 64 (drop 5 tape)).

(** unfolding the state monad *)
Ltac run_monad :=
  unfold mbind, M_bind, mret, M_ret, Println, go, NewError, NewError0,
    StatusOK, StatusBadRequest, StatusUnauthorized, StatusInternalServerError;
  cbn beta iota.

(** ** Worlds used as examples *)

(** a random source that delivers the byte [a] 69 times: enough for one
    Create, which then hands out the slug [!JJJJJ] *)
Definition tape_a : list ascii := replicate 69 "a"%char.

Definition key_J : string := GoString.of_bytes (replicate 64 "J"%char).

(** a world whose store holds one record, under the slug [!JJJJJ] *)
Definition world_with (record : list string) (tape : list ascii) : World :=
  mkWorld {["!JJJJJ" := record]} tape [] [] [].

(** the slug [!JJJJJ] is taken, and the next Create will draw it again *)
Definition world_taken : World :=
  world_with ["http://old.example"; key_J; "7"] tape_a.

(** the slug [!JJJJJ] is taken, and the next Create will draw [!KKKKK] *)
Definition world_other : World :=
  world_with ["http://old.example"; key_J; "7"] (replicate 69 "b"%char).

(** one record of release 1.1.0, never resolved *)
Definition world_one : World :=
  world_with ["https://example.com"; key_J; "0"] [].

(** one record whose counter is the largest [int] *)
Definition world_max : World :=
  world_with ["https://example.com"; key_J; "9223372036854775807"] [].

(** one alternative of [url_pattern], by the text that opens it *)
Definition anchored (opening : string) : Regexp.t :=
  Regexp.Seq [Regexp.BeginText; Regexp.Str opening;
              Regexp.Repeat 1 host_class; Regexp.Lit ".";
              Regexp.Repeat 2 tld_class; Regexp.EndText].

(** ** More of the program *)

(** [app.Get("/:slug", ...)] of release 1.0.0-alpha.1: the redirect, with no
    goroutine behind it *)
Definition Resolve_alpha (slug : string) : M Response :=
  if bool_decide (slug = "" ∨ slug = "!") then
    mret (NewError StatusBadRequest "missing slug")
  else
    r ← Do (LINDEX slug 0);
    let '(val, err) := ToString r in
    if bool_decide (is_Some err ∨ val = "") then
      mret (NewError StatusBadRequest "failed to retrieve redirect")
    else mret (Redirect val).

(** the world after [n] Resolves of [slug], each followed by its goroutine *)
Fixpoint resolves (n : nat) (slug : string) (w : World) : World :=
  match n with
  | O => w
  | S n' => resolves n' slug (Resolve_sync slug w).2
  end.

(** the 256 values a byte of the random source can take *)
Definition all_bytes : list ascii := ascii_of_nat <$> seq 0 256.

(** the bytes that the loop of RandStr turns into [chars[i]] *)
Definition preimages (i : nat) : list ascii :=
  filter (λ b, byte_mod_len b = i) all_bytes.

(** a list of the store that holds a counter: a decimal numeral at
    position 2 *)
Definition has_counter (l : list string) : Prop :=
  ∃ c, l !! 2%nat = Some (GoInt.Sprint c).

(** ** The goroutine, command by command

    The body of the goroutine sends two commands and holds no lock between
    them, so other code may run in between. Its two halves: *)

(** the first half: read position 2 and parse it; [None] when the read
    failed and the goroutine returned *)
Definition increment_read (slug : string) : M (option Z) :=
  r ← Do (LINDEX slug 2);
  let '(val, err) := ToString r in
  if err is Some _ then
    _ ← Println ("Failed to get clicks counter for" +:+ slug);
    mret None
  else
    let '(valint, _) := GoInt.Atoi val in
    mret (Some valint).

(** the second half: write [valint+1] back *)
Definition increment_write (slug : string) (valint : Z) : M unit :=
  r ← Do (LSET slug 2 (GoInt.Sprint (GoInt.wrap (valint + 1))));
  if ReplyError r is Some _ then
    Println ("Failed to increment counter for" +:+ slug)
  else mret tt.

(** * Theorems *)

(** ** Bytes and strings *)

Lemma to_bytes_app (a b : string) :
  GoString.to_bytes (a +:+ b) = GoString.to_bytes a ++ GoString.to_bytes b.
Proof.
  unfold GoString.to_bytes. induction a as [|c a IH]; [done|].
  change (String c a +:+ b) with (String c (a +:+ b)). cbn. by rewrite IH.
Qed.

Lemma to_of_bytes (l : list ascii) : GoString.to_bytes (GoString.of_bytes l) = l.
Proof. apply list_ascii_of_string_of_list_ascii. Qed.

Lemma of_to_bytes (s : string) : GoString.of_bytes (GoString.to_bytes s) = s.
Proof. apply string_of_list_ascii_of_string. Qed.

Lemma length_to_bytes (s : string) :
  length (GoString.to_bytes s) = GoString.len s.
Proof.
  unfold GoString.to_bytes, GoString.len.
  induction s as [|c s IH]; [done|]. cbn. by rewrite IH.
Qed.

Lemma len_of_bytes (l : list ascii) : GoString.len (GoString.of_bytes l) = length l.
Proof. by rewrite <- length_to_bytes, to_of_bytes. Qed.

Lemma len_app (a b : string) :
  GoString.len (a +:+ b) = (GoString.len a + GoString.len b)%nat.
Proof. by rewrite <- !length_to_bytes, to_bytes_app, length_app. Qed.

Lemma to_bytes_inj (a b : string) :
  GoString.to_bytes a = GoString.to_bytes b → a = b.
Proof. intros H. by rewrite <- (of_to_bytes a), H, of_to_bytes. Qed.

Lemma all_app (p : ascii → bool) (a b : string) :
  GoString.all p (a +:+ b) = GoString.all p a && GoString.all p b.
Proof. unfold GoString.all. by rewrite to_bytes_app, forallb_app. Qed.

Lemma all_Forall (p : ascii → bool) (s : string) :
  GoString.all p s = true ↔ Forall (λ c, p c = true) (GoString.to_bytes s).
Proof. unfold GoString.all. rewrite forallb_forall, Forall_forall.
  by setoid_rewrite list_elem_of_In. Qed.

(** The alphabet is the set of ASCII letters and digits. *)
Lemma in_alphabet_alnum (c : ascii) :
  in_alphabet c ↔ GoString.is_alnum c = true.
Proof.
  unfold in_alphabet.
  assert (bool_decide (c ∈ GoString.to_bytes chars) = GoString.is_alnum c) as <-.
  { destruct c as [[] [] [] [] [] [] [] []]; vm_compute; reflexivity. }
  by rewrite bool_decide_eq_true.
Qed.

(** ** The random-string generator *)

Lemma len_chars : GoString.len chars = 62%nat.
Proof. reflexivity. Qed.

(** [b % byte(len(chars))] is a valid index of [chars]: the loop of RandStr
    never panics, and [pick] never falls back on its default. *)
Lemma chars_at_mod (b : ascii) :
  ∃ c, chars_at (byte_mod_len b) = Some c ∧ pick b = c ∧ in_alphabet c.
Proof.
  unfold pick.
  assert (byte_mod_len b < 62)%nat as Hlt.
  { unfold byte_mod_len. rewrite len_chars. apply Nat.mod_upper_bound. lia. }
  assert (∀ i, (i < 62)%nat →
    ∃ c, chars_at i = Some c ∧ GoString.is_alnum c = true) as Hall.
  { intros i Hi. do 62 (destruct i as [|i]; [by eexists|]). lia. }
  destruct (Hall _ Hlt) as (c & -> & Hc). exists c.
  split; [done|]. split; [done|]. by apply in_alphabet_alnum.
Qed.

Lemma pick_in_alphabet (b : ascii) : in_alphabet (pick b).
Proof. by destruct (chars_at_mod b) as (c & _ & -> & ?). Qed.

Lemma rand_Read_spec (n : nat) (w : World) :
  rand_Read n w =
    if decide (n ≤ length (entropy w))%nat then
      ((take n (entropy w), None),
       mkWorld (store w) (drop n (entropy w)) (trace w) (logged w) (spawned w))
    else ((replicate n "000"%char, Some "entropy source unavailable"), w).
Proof.
  unfold rand_Read. destruct (Nat.leb_spec n (length (entropy w)));
    case_decide; (done || lia).
Qed.

(** What RandStr returns, by whether the source delivers [n] bytes. *)
Lemma RandStr_spec (n : nat) (w : World) :
  RandStr n w =
    if decide (n ≤ length (entropy w))%nat then
      ((GoString.of_bytes (pick <$> take n (entropy w)), None),
       mkWorld (store w) (drop n (entropy w)) (trace w) (logged w) (spawned w))
    else (("", Some "entropy source unavailable"), w).
Proof.
  unfold RandStr, mbind, M_bind. rewrite rand_Read_spec. by case_decide.
Qed.

Lemma RandStr_success (n : nat) (w w' : World) (s : string) :
  RandStr n w = ((s, None), w') →
  GoString.len s = n ∧ Forall in_alphabet (GoString.to_bytes s)
  ∧ store w' = store w ∧ trace w' = trace w ∧ logged w' = logged w
  ∧ spawned w' = spawned w ∧ entropy w' = drop n (entropy w)
  ∧ (n ≤ length (entropy w))%nat.
Proof.
  rewrite RandStr_spec. case_decide as Hn; [|done]. intros [= <- <-].
  rewrite len_of_bytes, to_of_bytes, length_fmap, length_take. cbn.
  split; [lia|]. split; [|done].
  apply Forall_fmap, Forall_true. intros b. apply pick_in_alphabet.
Qed.

(** ** The store *)

Lemma list_offset_nonneg {A} (l : list A) (i : Z) :
  0 ≤ i →
  list_offset l i = if decide (Z.to_nat i < length l)%nat
                    then Some (Z.to_nat i) else None.
Proof.
  intros Hi. unfold list_offset.
  destruct (Z.ltb_spec i 0); [lia|].
  destruct (Z.leb_spec 0 i); [|lia]. cbn.
  destruct (Z.ltb_spec i (Z.of_nat (length l))); case_decide; (done || lia).
Qed.

(** LINDEX at a non-negative index reads that position and changes nothing;
    an absent key and an absent position both give the nil reply. *)
Lemma serve_LINDEX (db : gmap string (list string)) (key : string) (i : Z) :
  0 ≤ i →
  serve (LINDEX key i) db =
    (from_option RString RNil (field db key (Z.to_nat i)), db).
Proof.
  intros Hi. unfold serve, field. destruct (db !! key) as [l|]; [|done]. cbn.
  rewrite list_offset_nonneg by done. case_decide as Hlt; [done|].
  by rewrite (lookup_ge_None_2 l) by lia.
Qed.

Lemma serve_RPUSH (db : gmap string (list string)) (key : string)
    (x : string) (xs : list string) :
  serve (RPUSH key (x :: xs)) db =
    (RInteger (Z.of_nat (length (default [] (db !! key) ++ x :: xs))),
     <[key := default [] (db !! key) ++ x :: xs]> db).
Proof. done. Qed.

(** ** Create, step by step *)

Lemma Create_spec (url : string) (w : World) :
  Create url w =
    if bool_decide (url = "") then
      (Error 400 "missing url query parameter", w)
    else if negb (ValidateUrl url) then
      (Error 400 "invalid url, please add http:// or https://", w)
    else if decide (5 ≤ length (entropy w))%nat then
      let slug := next_slug (entropy w) in
      let key := next_key (entropy w) in
      if decide (64 ≤ length (drop 5 (entropy w)))%nat then
        (JSON [("slug", slug); ("key", key)],
         mkWorld
           (<[slug := default [] (store w !! slug) ++ [url; key; "0"]]> (store w))
           (drop 64 (drop 5 (entropy w)))
           (trace w ++ [RPUSH slug [url; key; "0"]]) (logged w) (spawned w))
      else
        (Error 500 "failed to generate admin key",
         mkWorld (store w) (drop 5 (entropy w)) (trace w) (logged w) (spawned w))
    else (Error 500 "failed to generate random string", w).
Proof.
  unfold Create. run_monad.
  case_bool_decide; [done|]. destruct (ValidateUrl url); [|done]. cbn.
  rewrite RandStr_spec. case_decide; [|done].
  rewrite RandStr_spec. cbn. case_decide; [|done]. by unfold Do.
Qed.

(** Create succeeds whenever the URL is valid and the random source can
    deliver the 5 + 64 bytes it asks for. *)
Lemma Create_succeeds (url : string) (w : World) :
  ValidateUrl url = true → (69 ≤ length (entropy w))%nat →
  ∃ w', Create url w
        = (JSON [("slug", next_slug (entropy w)); ("key", next_key (entropy w))], w').
Proof.
  intros Hv Hn. rewrite Create_spec, Hv.
  case_bool_decide as Hu; [by subst|]. cbn.
  rewrite length_drop. do 2 (case_decide; [|lia]). by eexists.
Qed.

(** A JSON response of Create determines everything it did. *)
Lemma Create_inv (url : string) (w w' : World) (fields : list (string * string)) :
  Create url w = (JSON fields, w') →
  let slug := next_slug (entropy w) in
  let key := next_key (entropy w) in
  fields = [("slug", slug); ("key", key)]
  ∧ url ≠ "" ∧ ValidateUrl url = true ∧ (69 ≤ length (entropy w))%nat
  ∧ store w' = <[slug := default [] (store w !! slug) ++ [url; key; "0"]]> (store w)
  ∧ trace w' = trace w ++ [RPUSH slug [url; key; "0"]]
  ∧ logged w' = logged w ∧ spawned w' = spawned w.
Proof.
  rewrite Create_spec. case_bool_decide; [done|].
  destruct (ValidateUrl url); [|done]. cbn.
  case_decide; [|done]. case_decide as H64; [|done].
  rewrite length_drop in H64. intros [= <- <-]. cbn. repeat split; (done || lia).
Qed.

(** Create either answers with an error and leaves the store, the trace and
    the goroutines as they were, or answers with JSON. *)
Lemma Create_cases (url : string) (w w' : World) (resp : Response) :
  Create url w = (resp, w') →
  ((∃ code msg, resp = Error code msg) ∧ store w' = store w)
  ∨ (∃ fields, resp = JSON fields).
Proof.
  rewrite Create_spec. case_bool_decide.
  { intros [= <- <-]. left. eauto. }
  destruct (ValidateUrl url); cbn.
  2:{ intros [= <- <-]. left. eauto. }
  case_decide.
  2:{ intros [= <- <-]. left. eauto. }
  case_decide; intros [= <- <-]; [right|left]; eauto.
Qed.

Lemma next_slug_ok (tape : list ascii) :
  (5 ≤ length tape)%nat →
  ∃ rest, next_slug tape = "!" +:+ rest ∧ GoString.len rest = 5%nat
          ∧ Forall in_alphabet (GoString.to_bytes rest).
Proof.
  intros H. eexists. split; [done|].
  rewrite len_of_bytes, to_of_bytes, length_fmap, length_take.
  split; [lia|]. apply Forall_fmap, Forall_true, pick_in_alphabet.
Qed.

Lemma next_key_ok (tape : list ascii) :
  (69 ≤ length tape)%nat →
  GoString.len (next_key tape) = 64%nat
  ∧ Forall in_alphabet (GoString.to_bytes (next_key tape)).
Proof.
  intros H. unfold next_key.
  rewrite len_of_bytes, to_of_bytes, length_fmap, length_take, length_drop.
  split; [lia|]. apply Forall_fmap, Forall_true, pick_in_alphabet.
Qed.

(** ** Sending commands *)

Lemma after_cmds_after (cs1 cs2 : list Cmd) (db1 db2 : gmap string (list string))
    (w : World) :
  after_cmds cs2 db2 (after_cmds cs1 db1 w) = after_cmds (cs1 ++ cs2) db2 w.
Proof. unfold after_cmds. cbn. by rewrite app_assoc. Qed.

Lemma Do_LINDEX (key : string) (i : Z) (w : World) :
  0 ≤ i →
  Do (LINDEX key i) w =
    (from_option RString RNil (field (store w) key (Z.to_nat i)),
     after_cmds [LINDEX key i] (store w) w).
Proof. intros Hi. unfold Do. by rewrite serve_LINDEX. Qed.

Lemma Do_DEL (key : string) (w : World) :
  Do (DEL key) w =
    (RInteger (if store w !! key is Some _ then 1 else 0),
     after_cmds [DEL key] (delete key (store w)) w).
Proof. done. Qed.

Lemma Do_LSET (key : string) (x : string) (l : list string) (w : World) :
  store w !! key = Some l → (2 < length l)%nat →
  Do (LSET key 2 x) w
  = (ROK, after_cmds [LSET key 2 x] (<[key := <[2%nat := x]> l]> (store w)) w).
Proof.
  intros Hl Hlen. unfold Do. cbn [serve]. rewrite Hl.
  rewrite list_offset_nonneg by done. change (Z.to_nat 2) with 2%nat.
  by case_decide; [|lia].
Qed.

Lemma failed_or_empty_nil (val : string) :
  bool_decide (is_Some (@None string) ∨ val = "") = bool_decide (val = "").
Proof.
  apply bool_decide_ext. split; [|by right].
  intros [[? [=]]|?]; done.
Qed.

Lemma failed_or_empty_err (e val : string) :
  bool_decide (is_Some (Some e) ∨ val = "") = true.
Proof. apply bool_decide_eq_true. left. by eexists. Qed.

(** ** Resolve, Stats, Delete and the goroutine, step by step *)

Lemma Resolve_spec (slug : string) (w : World) :
  Resolve slug w =
    if bool_decide (slug = "" ∨ slug = "!") then (Error 400 "missing slug", w)
    else
      match field (store w) slug 0 with
      | Some val =>
          if bool_decide (val = "") then
            (Error 400 "failed to retrieve redirect",
             after_cmds [LINDEX slug 0] (store w) w)
          else
            (Redirect val,
             mkWorld (store w) (entropy w) (trace w ++ [LINDEX slug 0])
               (logged w) (spawned w ++ [slug]))
      | None =>
          (Error 400 "failed to retrieve redirect",
           after_cmds [LINDEX slug 0] (store w) w)
      end.
Proof.
  unfold Resolve. run_monad. case_bool_decide; [done|].
  rewrite Do_LINDEX by done. change (Z.to_nat 0) with 0%nat.
  destruct (field (store w) slug 0) as [val|]; cbn [from_option ToString].
  - rewrite failed_or_empty_nil. by case_bool_decide.
  - by rewrite failed_or_empty_err.
Qed.

Lemma Stats_spec (slug key : string) (w : World) :
  Stats slug key w =
    if bool_decide (slug = "" ∨ slug = "!") then (Error 400 "missing slug", w)
    else if bool_decide (key = "") then
      (Error 400 "missing key from query params", w)
    else
      match field (store w) slug 1 with
      | None =>
          (Error 400 "failed to check admin key",
           after_cmds [LINDEX slug 1] (store w) w)
      | Some stored =>
          if bool_decide (stored ≠ key) then
            (Error 401 "Unauthorized", after_cmds [LINDEX slug 1] (store w) w)
          else
            match field (store w) slug 2 with
            | None =>
                (Error 500 "failed to get statistics",
                 after_cmds [LINDEX slug 1; LINDEX slug 2] (store w) w)
            | Some val =>
                (SendString val,
                 after_cmds [LINDEX slug 1; LINDEX slug 2] (store w) w)
            end
      end.
Proof.
  unfold Stats. run_monad. do 2 (case_bool_decide; [done|]).
  rewrite Do_LINDEX by done. change (Z.to_nat 1) with 1%nat.
  destruct (field (store w) slug 1) as [stored|];
    cbn [from_option ToString]; [|done].
  case_bool_decide; [done|].
  rewrite Do_LINDEX by done. change (Z.to_nat 2) with 2%nat.
  rewrite after_cmds_after. cbn [after_cmds store app].
  by destruct (field (store w) slug 2).
Qed.

Lemma Delete_spec (slug key : string) (w : World) :
  Delete slug key w =
    if bool_decide (slug = "" ∨ slug = "!") then (Error 400 "missing slug", w)
    else if bool_decide (key = "") then
      (Error 400 "missing key from query params", w)
    else
      match field (store w) slug 0 with
      | None =>
          (Error 400 "failed to retrieve redirect",
           after_cmds [LINDEX slug 0] (store w) w)
      | Some val =>
          if bool_decide (val = "") then
            (Error 400 "failed to retrieve redirect",
             after_cmds [LINDEX slug 0] (store w) w)
          else
            match field (store w) slug 1 with
            | None =>
                (Error 400 "failed to check admin key",
                 after_cmds [LINDEX slug 0; LINDEX slug 1] (store w) w)
            | Some stored =>
                if bool_decide (stored ≠ key) then
                  (Error 401 "Unauthorized",
                   after_cmds [LINDEX slug 0; LINDEX slug 1] (store w) w)
                else
                  (SendStatus 200,
                   after_cmds [LINDEX slug 0; LINDEX slug 1; DEL slug]
                     (delete slug (store w)) w)
            end
      end.
Proof.
  unfold Delete. run_monad. do 2 (case_bool_decide; [done|]).
  rewrite Do_LINDEX by done. change (Z.to_nat 0) with 0%nat.
  destruct (field (store w) slug 0) as [val|]; cbn [from_option ToString].
  2:{ by rewrite failed_or_empty_err. }
  rewrite failed_or_empty_nil. case_bool_decide as Hval; [done|].
  rewrite Do_LINDEX by done. change (Z.to_nat 1) with 1%nat.
  rewrite after_cmds_after. cbn [after_cmds store app].
  destruct (field (store w) slug 1) as [stored|];
    cbn [from_option ToString]; [|done].
  case_bool_decide; [done|].
  rewrite Do_DEL. cbn [ReplyError]. rewrite failed_or_empty_nil.
  case_bool_decide; [done|]. unfold after_cmds. cbn.
  by rewrite <- app_assoc.
Qed.

Lemma increment_spec (slug : string) (w : World) :
  increment slug w =
    match store w !! slug with
    | Some l =>
        match l !! 2%nat with
        | Some val =>
            let new := GoInt.Sprint (GoInt.wrap ((GoInt.Atoi val).1 + 1)) in
            (tt, after_cmds [LINDEX slug 2; LSET slug 2 new]
                   (<[slug := <[2%nat := new]> l]> (store w)) w)
        | None =>
            (tt, mkWorld (store w) (entropy w) (trace w ++ [LINDEX slug 2])
                   (logged w ++ ["Failed to get clicks counter for" +:+ slug])
                   (spawned w))
        end
    | None =>
        (tt, mkWorld (store w) (entropy w) (trace w ++ [LINDEX slug 2])
               (logged w ++ ["Failed to get clicks counter for" +:+ slug])
               (spawned w))
    end.
Proof.
  unfold increment. run_monad.
  rewrite Do_LINDEX by done. change (Z.to_nat 2) with 2%nat. unfold field.
  destruct (store w !! slug) as [l|] eqn:Hl; cbn [mbind option_bind]; [|done].
  destruct (l !! 2%nat) as [val|] eqn:Hv; cbn [from_option ToString]; [|done].
  destruct (GoInt.Atoi val) as [valint e]. cbn [fst].
  apply lookup_lt_Some in Hv.
  rewrite (Do_LSET _ _ l) by done.
  cbn [ReplyError]. by rewrite after_cmds_after.
Qed.

(** ** Slugs and keys handed out by Create *)

Lemma next_slug_len (tape : list ascii) :
  (5 ≤ length tape)%nat → GoString.len (next_slug tape) = 6%nat.
Proof.
  intros H. unfold next_slug.
  rewrite len_app, len_of_bytes, length_fmap, length_take.
  rewrite Nat.min_l by done. reflexivity.
Qed.

Lemma next_slug_not_reserved (tape : list ascii) :
  (5 ≤ length tape)%nat → ¬ (next_slug tape = "" ∨ next_slug tape = "!").
Proof.
  intros H [E|E]; apply (f_equal GoString.len) in E;
    rewrite next_slug_len in E by done; discriminate.
Qed.

(** C8. Every slug produced by Create is the sentinel [!] followed by
    exactly 5 bytes, and every admin key produced by Create has exactly 64
    bytes, all drawn from the alphabet [chars], which has 62 distinct
    bytes; and RandStr(n), when it succeeds, returns exactly n bytes of
    that alphabet. *)
Theorem C8_generated_formats (url : string) (w w' : World)
    (fields : list (string * string)) :
  Create url w = (JSON fields, w') →
  (∃ rest key,
      fields = [("slug", "!" +:+ rest); ("key", key)]
      ∧ GoString.len rest = 5%nat ∧ Forall in_alphabet (GoString.to_bytes rest)
      ∧ GoString.len key = 64%nat ∧ Forall in_alphabet (GoString.to_bytes key))
  ∧ GoString.len chars = 62%nat ∧ NoDup (GoString.to_bytes chars)
  ∧ (∀ n w0 w0' s, RandStr n w0 = ((s, None), w0') →
       GoString.len s = n ∧ Forall in_alphabet (GoString.to_bytes s)).
Proof.
  intros H. apply Create_inv in H as (-> & _ & _ & Hn & _).
  repeat split.
  - destruct (next_slug_ok (entropy w)) as (rest & -> & ? & ?); [lia|].
    destruct (next_key_ok (entropy w)) as [? ?]; [done|].
    by exists rest, (next_key (entropy w)).
  - apply (bool_decide_unpack _). vm_compute. exact I.
  - by apply RandStr_success in H as (? & _).
  - by apply RandStr_success in H as (_ & ? & _).
Qed.

Lemma C8_generated_formats_witness :
  (∃ rest key,
      [("slug", "!JJJJJ"); ("key", key_J)] = [("slug", "!" +:+ rest); ("key", key)]
      ∧ GoString.len rest = 5%nat ∧ Forall in_alphabet (GoString.to_bytes rest)
      ∧ GoString.len key = 64%nat ∧ Forall in_alphabet (GoString.to_bytes key))
  ∧ GoString.len chars = 62%nat ∧ NoDup (GoString.to_bytes chars)
  ∧ (∀ n w0 w0' s, RandStr n w0 = ((s, None), w0') →
       GoString.len s = n ∧ Forall in_alphabet (GoString.to_bytes s)).
Proof.
  apply (C8_generated_formats "https://example.com" (boot tape_a)
           (Create "https://example.com" (boot tape_a)).2).
  vm_compute. reflexivity.
Defined.

(** C5, as the code has it. A successful Create ran on a valid URL and
    pushed, in this order, the target URL, the admin key and the decimal
    string "0" onto the end of the list under the slug it hands out; when
    that slug is new to the store the list persisted under it is exactly
    these three elements. *)
Theorem C5_create_persists_triple (url : string) (w w' : World)
    (fields : list (string * string)) :
  Create url w = (JSON fields, w') →
  ∃ slug key,
    fields = [("slug", slug); ("key", key)]
    ∧ ValidateUrl url = true
    ∧ GoInt.Sprint 0 = "0"
    ∧ store w' !! slug
      = Some (default [] (store w !! slug) ++ [url; key; GoInt.Sprint 0])
    ∧ (store w !! slug = None → store w' !! slug = Some [url; key; "0"]).
Proof.
  intros H. apply Create_inv in H as (-> & _ & Hv & _ & Hst & _).
  eexists _, _. split; [done|]. split; [done|]. split; [done|].
  rewrite Hst, lookup_insert_eq. split; [done|]. by intros ->.
Qed.

Lemma C5_create_persists_triple_witness :
  ∃ slug key,
    [("slug", "!JJJJJ"); ("key", key_J)] = [("slug", slug); ("key", key)]
    ∧ ValidateUrl "https://example.com" = true
    ∧ GoInt.Sprint 0 = "0"
    ∧ store (Create "https://example.com" (boot tape_a)).2 !! slug
      = Some (default [] (store (boot tape_a) !! slug)
              ++ ["https://example.com"; key; GoInt.Sprint 0])
    ∧ (store (boot tape_a) !! slug = None →
       store (Create "https://example.com" (boot tape_a)).2 !! slug
       = Some ["https://example.com"; key; "0"]).
Proof.
  apply (C5_create_persists_triple "https://example.com" (boot tape_a)).
  vm_compute. reflexivity.
Defined.

(** C5 as stated fails when the slug that Create draws is taken: Create
    succeeds on a valid URL, and the list persisted under the slug has six
    elements, the old record first, not exactly the three of this Create. *)
Lemma C5_counterexample_collision :
  ValidateUrl "https://example.com" = true
  ∧ (Create "https://example.com" world_taken).1
    = JSON [("slug", "!JJJJJ"); ("key", key_J)]
  ∧ store (Create "https://example.com" world_taken).2 !! "!JJJJJ"
    = Some ["http://old.example"; key_J; "7";
            "https://example.com"; key_J; "0"]
  ∧ store (Create "https://example.com" world_taken).2 !! "!JJJJJ"
    ≠ Some ["https://example.com"; key_J; "0"].
Proof. repeat split; vm_compute; (reflexivity || discriminate). Qed.

(** C1. When Create accepts a URL that the validator accepts and the slug it
    hands out was not in the store before, a Resolve of that slug right
    after it redirects to exactly that URL. *)
Theorem C1_create_then_resolve (url : string) (w w' : World)
    (slug key : string) :
  ValidateUrl url = true →
  Create url w = (JSON [("slug", slug); ("key", key)], w') →
  store w !! slug = None →
  (Resolve slug w').1 = Redirect url.
Proof.
  intros _ H Hfresh. apply Create_inv in H as (E & Hu & _ & Hn & Hst & _).
  injection E as -> ->. rewrite Hfresh in Hst. cbn in Hst.
  rewrite Resolve_spec. rewrite bool_decide_eq_false_2
    by (apply next_slug_not_reserved; lia).
  unfold field. rewrite Hst, lookup_insert_eq. cbn.
  by rewrite bool_decide_eq_false_2.
Qed.

Lemma C1_create_then_resolve_witness :
  (Resolve "!JJJJJ" (Create "https://example.com" (boot tape_a)).2).1
  = Redirect "https://example.com".
Proof.
  apply (C1_create_then_resolve "https://example.com" (boot tape_a) _
           "!JJJJJ" key_J); vm_compute; reflexivity.
Defined.

(** Create leaves every list of the store in place and at most appends. *)
Lemma Create_extends (url : string) (w w' : World) (resp : Response) :
  Create url w = (resp, w') →
  ∀ slug l, store w !! slug = Some l →
    ∃ l', store w' !! slug = Some (l ++ l').
Proof.
  intros H slug l Hl.
  destruct (Create_cases _ _ _ _ H) as [[_ ->]|[fields ->]].
  { exists []. by rewrite app_nil_r. }
  apply Create_inv in H as (_ & _ & _ & _ & -> & _).
  destruct (decide (slug = next_slug (entropy w))) as [->|Hne].
  - rewrite lookup_insert_eq, Hl. by eexists.
  - rewrite lookup_insert_ne by done. exists []. by rewrite app_nil_r.
Qed.

(** The same holds for the Create of release 1.0.0-alpha.1. *)
Lemma Create_alpha_store (url : string) (w : World) :
  store (Create_alpha url w).2 = store w
  ∨ ∃ slug key,
      store (Create_alpha url w).2
      = <[slug := default [] (store w !! slug) ++ [url; key]]> (store w).
Proof.
  unfold Create_alpha. run_monad. case_bool_decide; [by left|].
  destruct (ValidateUrl url); cbn [negb]; [|by left].
  rewrite RandStr_spec. case_decide; [|by left].
  rewrite RandStr_spec. cbn [entropy]. case_decide; [|by left].
  unfold Do. rewrite serve_RPUSH. cbn [ReplyError store snd].
  right. by eexists _, _.
Qed.

Lemma Create_alpha_extends (url : string) (w w' : World) (resp : Response) :
  Create_alpha url w = (resp, w') →
  ∀ slug l, store w !! slug = Some l →
    ∃ l', store w' !! slug = Some (l ++ l').
Proof.
  intros H slug l Hl. pose proof (Create_alpha_store url w) as Hst.
  rewrite H in Hst. cbn [snd] in Hst.
  destruct Hst as [->|(k & key & ->)].
  { exists []. by rewrite app_nil_r. }
  destruct (decide (slug = k)) as [->|Hne].
  - rewrite lookup_insert_eq, Hl. by eexists.
  - rewrite lookup_insert_ne by done. exists []. by rewrite app_nil_r.
Qed.

(** C4. Create never overwrites a record, in release 1.1.0 and in release
    1.0.0-alpha.1 alike. Whatever the store holds and whatever slug Create
    targets, every list in the store is still there afterwards with its
    elements where they were (Create only appends), so the target URL, admin
    key and counter read at positions 0, 1 and 2 of an existing record are
    the ones stored before; and every slug of the store maps to one list
    only. *)
Theorem C4_create_never_overwrites (create : string → M Response)
    (url : string) (w w' : World) (resp : Response) :
  create = Create ∨ create = Create_alpha →
  create url w = (resp, w') →
  (∀ slug l, store w !! slug = Some l →
     ∃ l', store w' !! slug = Some (l ++ l'))
  ∧ (∀ slug i v, field (store w) slug i = Some v →
       field (store w') slug i = Some v
       ∧ (serve (LINDEX slug (Z.of_nat i)) (store w')).1 = RString v)
  ∧ (∀ slug, is_Some (store w' !! slug) →
       exists ! l, store w' !! slug = Some l).
Proof.
  intros Hc H.
  assert (∀ slug l, store w !! slug = Some l →
            ∃ l', store w' !! slug = Some (l ++ l')) as Hext.
  { destruct Hc as [-> | ->];
      eauto using Create_extends, Create_alpha_extends. }
  split; [done|]. split.
  - intros slug i v Hv. unfold field in *.
    destruct (store w !! slug) as [l|] eqn:Hl; [|done]. cbn in Hv.
    destruct (Hext _ _ Hl) as [l' Hl'].
    assert (field (store w') slug i = Some v) as Hf.
    { unfold field. rewrite Hl'. cbn. by apply lookup_app_l_Some. }
    split; [done|]. rewrite serve_LINDEX by lia. by rewrite Nat2Z.id, Hf.
  - intros slug [l Hl]. exists l. split; [done|]. congruence.
Qed.

Lemma C4_create_never_overwrites_witness :
  field (store (Create "https://example.com" world_taken).2) "!JJJJJ" 0
  = Some "http://old.example"
  ∧ field (store (Create "https://example.com" world_taken).2) "!JJJJJ" 1
    = Some key_J
  ∧ field (store (Create "https://example.com" world_taken).2) "!JJJJJ" 2
    = Some "7".
Proof.
  pose proof (C4_create_never_overwrites Create "https://example.com"
                world_taken _ _ (or_introl eq_refl) (surjective_pairing _))
    as (_ & H & _).
  repeat split; apply H; reflexivity.
Defined.

(** ** Records as Create leaves them *)

Lemma ValidateUrl_nonempty (url : string) : ValidateUrl url = true → url ≠ "".
Proof. intros H ->. vm_compute in H. discriminate. Qed.

Lemma slug_ok_not_reserved (slug : string) :
  slug_ok slug = true → ¬ (slug = "" ∨ slug = "!").
Proof.
  intros H [->| ->]; vm_compute in H; discriminate.
Qed.

Lemma key_ok_nonempty (key : string) : key_ok key = true → key ≠ "".
Proof. intros H ->. vm_compute in H. discriminate. Qed.

Lemma record_ok_inv (slug url key : string) (rest : list string) :
  record_ok slug (url :: key :: rest) = true →
  ¬ (slug = "" ∨ slug = "!") ∧ url ≠ "" ∧ key ≠ "" ∧ ValidateUrl url = true.
Proof.
  cbn. rewrite !andb_true_iff. intros [[Hs Hu] Hk].
  auto using slug_ok_not_reserved, ValidateUrl_nonempty, key_ok_nonempty.
Qed.

(** ** Delete *)

(** C2, as the code has it. For every record as Create leaves it: a Delete
    with a non-empty key other than the stored admin key answers
    Unauthorized, and one with an empty key answers BadRequest (missing key);
    either way the store is unchanged and a Resolve that follows still
    redirects to the target URL. A Delete with the stored admin key answers
    200, removes the record, and a Resolve that follows fails with the
    not-found error. *)
Theorem C2_delete_requires_key (slug url stored wrong : string)
    (rest : list string) (w : World) :
  store w !! slug = Some (url :: stored :: rest) →
  record_ok slug (url :: stored :: rest) = true →
  wrong ≠ stored →
  ((Delete slug wrong w).1
   = (if bool_decide (wrong = "")
      then Error 400 "missing key from query params"
      else Error 401 "Unauthorized")
   ∧ store (Delete slug wrong w).2 = store w
   ∧ (Resolve slug (Delete slug wrong w).2).1 = Redirect url)
  ∧ ((Delete slug stored w).1 = SendStatus 200
     ∧ store (Delete slug stored w).2 = delete slug (store w)
     ∧ store (Delete slug stored w).2 !! slug = None
     ∧ (Resolve slug (Delete slug stored w).2).1
       = Error 400 "failed to retrieve redirect").
Proof.
  intros Hl Hok Hne. apply record_ok_inv in Hok as (Hs & Hu & Hk & _).
  assert (field (store w) slug 0 = Some url) as H0 by (unfold field; by rewrite Hl).
  assert (field (store w) slug 1 = Some stored) as H1 by (unfold field; by rewrite Hl).
  rewrite !Delete_spec, !(bool_decide_eq_false_2 (slug = "" ∨ slug = "!")) by done.
  split.
  - case_bool_decide as Hkey.
    + split; [done|]. split; [done|]. cbn [snd].
      by rewrite Resolve_spec, bool_decide_eq_false_2, H0, bool_decide_eq_false_2.
    + rewrite H0, bool_decide_eq_false_2, H1, bool_decide_eq_true_2 by done.
      split; [done|]. split; [done|]. cbn [snd].
      rewrite Resolve_spec, bool_decide_eq_false_2 by done.
      cbn [after_cmds store]. by rewrite H0, bool_decide_eq_false_2.
  - rewrite (bool_decide_eq_false_2 (stored = "")) by done.
    rewrite H0, bool_decide_eq_false_2, H1, bool_decide_eq_false_2 by auto.
    split; [done|]. split; [done|]. cbn [snd after_cmds store].
    split; [apply lookup_delete_eq|].
    rewrite Resolve_spec, bool_decide_eq_false_2 by done.
    unfold field, after_cmds. cbn [store]. by rewrite lookup_delete_eq.
Qed.

Lemma C2_delete_requires_key_witness :
  ((Delete "!JJJJJ" "wrong" world_one).1
   = (if bool_decide ("wrong" = "")
      then Error 400 "missing key from query params"
      else Error 401 "Unauthorized")
   ∧ store (Delete "!JJJJJ" "wrong" world_one).2 = store world_one
   ∧ (Resolve "!JJJJJ" (Delete "!JJJJJ" "wrong" world_one).2).1
     = Redirect "https://example.com")
  ∧ ((Delete "!JJJJJ" key_J world_one).1 = SendStatus 200
     ∧ store (Delete "!JJJJJ" key_J world_one).2
       = delete "!JJJJJ" (store world_one)
     ∧ store (Delete "!JJJJJ" key_J world_one).2 !! "!JJJJJ" = None
     ∧ (Resolve "!JJJJJ" (Delete "!JJJJJ" key_J world_one).2).1
       = Error 400 "failed to retrieve redirect").
Proof.
  apply (C2_delete_requires_key "!JJJJJ" "https://example.com" key_J "wrong"
           ["0"] world_one); vm_compute; (reflexivity || discriminate).
Defined.

(** C2 as stated fails: the empty string is a key that does not equal the
    stored admin key of this record, and Delete answers BadRequest, not
    Unauthorized. *)
Lemma C2_counterexample_empty_key :
  store world_one !! "!JJJJJ" = Some ["https://example.com"; key_J; "0"]
  ∧ record_ok "!JJJJJ" ["https://example.com"; key_J; "0"] = true
  ∧ "" ≠ key_J
  ∧ (Delete "!JJJJJ" "" world_one).1
    = Error 400 "missing key from query params"
  ∧ (Delete "!JJJJJ" "" world_one).1
    ≠ NewError0 StatusUnauthorized.
Proof. repeat split; vm_compute; (reflexivity || discriminate). Qed.

(** The Delete of release 1.0.0-alpha.1 had no guard on the key: there every
    key other than the stored one, the empty one too, is answered
    Unauthorized. *)
Lemma Delete_alpha_wrong_key (slug url stored wrong : string)
    (rest : list string) (w : World) :
  store w !! slug = Some (url :: stored :: rest) →
  record_ok slug (url :: stored :: rest) = true →
  wrong ≠ stored →
  (Delete_alpha slug wrong w).1 = Error 401 "Unauthorized"
  ∧ store (Delete_alpha slug wrong w).2 = store w.
Proof.
  intros Hl Hok Hne. apply record_ok_inv in Hok as (Hs & Hu & Hk & _).
  assert (field (store w) slug 0 = Some url) as H0 by (unfold field; by rewrite Hl).
  assert (field (store w) slug 1 = Some stored) as H1 by (unfold field; by rewrite Hl).
  unfold Delete_alpha. run_monad. rewrite bool_decide_eq_false_2 by done.
  rewrite Do_LINDEX by done. change (Z.to_nat 0) with 0%nat.
  rewrite H0. cbn [from_option ToString].
  rewrite failed_or_empty_nil, bool_decide_eq_false_2 by done.
  rewrite Do_LINDEX by done. change (Z.to_nat 1) with 1%nat.
  cbn [after_cmds store]. rewrite H1. cbn [from_option ToString].
  by rewrite bool_decide_eq_true_2.
Qed.

(** ** Stats *)

Lemma sent_after (cs : list Cmd) (db : gmap string (list string)) (w : World) :
  sent w (after_cmds cs db w) = cs.
Proof. unfold sent, after_cmds. cbn. by rewrite drop_app_length. Qed.

Lemma sent_same (w : World) : sent w w = [].
Proof. unfold sent. by rewrite drop_all. Qed.

(** The counter is read only by a Stats that found its key equal to the
    stored admin key. *)
Lemma Stats_reads_counter (slug key : string) (w : World) :
  LINDEX slug 2 ∈ sent w (Stats slug key w).2 →
  field (store w) slug 1 = Some key.
Proof.
  rewrite Stats_spec.
  repeat (case_bool_decide; [cbn [snd]; rewrite sent_same; by intros ?%elem_of_nil|]).
  destruct (field (store w) slug 1) as [stored|]; cbn [snd].
  2:{ rewrite sent_after. by intros [=]%list_elem_of_singleton. }
  case_bool_decide as Hk; cbn [snd].
  { rewrite sent_after. by intros [=]%list_elem_of_singleton. }
  intros _. f_equal. by destruct (decide (stored = key)).
Qed.

(** C3, as the code has it. For every record as Create leaves it, a Stats
    with a key other than the stored admin key fails: with Unauthorized when
    the key is not empty, with BadRequest (missing key) when it is. The
    answer is the same whatever the record holds after the admin key, so it
    carries no counter value; position 2 is not read; and the store is left
    as it was. Whatever the key, position 2 is read only when the key equals
    the stored admin key. *)
Theorem C3_stats_fails_closed (slug url stored wrong : string)
    (rest : list string) (w : World) :
  store w !! slug = Some (url :: stored :: rest) →
  record_ok slug (url :: stored :: rest) = true →
  wrong ≠ stored →
  (Stats slug wrong w).1
  = (if bool_decide (wrong = "")
     then Error 400 "missing key from query params"
     else Error 401 "Unauthorized")
  ∧ (LINDEX slug 2 ∉ sent w (Stats slug wrong w).2)
  ∧ store (Stats slug wrong w).2 = store w
  ∧ (∀ rest' w2, store w2 !! slug = Some (url :: stored :: rest') →
       (Stats slug wrong w2).1 = (Stats slug wrong w).1)
  ∧ (∀ key, LINDEX slug 2 ∈ sent w (Stats slug key w).2 → key = stored).
Proof.
  intros Hl Hok Hne. apply record_ok_inv in Hok as (Hs & Hu & Hk & _).
  assert (∀ w2 rest', store w2 !! slug = Some (url :: stored :: rest') →
    Stats slug wrong w2
    = if bool_decide (wrong = "")
      then (Error 400 "missing key from query params", w2)
      else (Error 401 "Unauthorized", after_cmds [LINDEX slug 1] (store w2) w2))
    as Hrun.
  { intros w2 rest' Hl2. rewrite Stats_spec, bool_decide_eq_false_2 by done.
    case_bool_decide; [done|]. unfold field. rewrite Hl2. cbn.
    by rewrite bool_decide_eq_true_2. }
  assert (field (store w) slug 1 = Some stored) as H1
    by (unfold field; by rewrite Hl).
  split; [|split; [|split; [|split]]].
  - rewrite (Hrun w rest Hl). by case_bool_decide.
  - intros Hin%Stats_reads_counter. congruence.
  - rewrite (Hrun w rest Hl). by case_bool_decide.
  - intros rest' w2 Hl2. rewrite (Hrun w rest Hl), (Hrun w2 rest' Hl2).
    by case_bool_decide.
  - intros key Hin%Stats_reads_counter. congruence.
Qed.

Lemma C3_stats_fails_closed_witness :
  (Stats "!JJJJJ" "wrong" world_one).1
  = (if bool_decide ("wrong" = "")
     then Error 400 "missing key from query params"
     else Error 401 "Unauthorized")
  ∧ (LINDEX "!JJJJJ" 2 ∉ sent world_one (Stats "!JJJJJ" "wrong" world_one).2)
  ∧ store (Stats "!JJJJJ" "wrong" world_one).2 = store world_one
  ∧ (∀ rest' w2,
       store w2 !! "!JJJJJ" = Some ("https://example.com" :: key_J :: rest') →
       (Stats "!JJJJJ" "wrong" w2).1 = (Stats "!JJJJJ" "wrong" world_one).1)
  ∧ (∀ key, LINDEX "!JJJJJ" 2 ∈ sent world_one (Stats "!JJJJJ" key world_one).2 →
       key = key_J).
Proof.
  apply (C3_stats_fails_closed "!JJJJJ" "https://example.com" key_J "wrong"
           ["0"] world_one); vm_compute; (reflexivity || discriminate).
Defined.

(** C3 as stated fails: the empty string is a key that does not equal the
    stored admin key of this record, and Stats answers BadRequest, not
    Unauthorized. *)
Lemma C3_counterexample_empty_key :
  store world_one !! "!JJJJJ" = Some ["https://example.com"; key_J; "0"]
  ∧ record_ok "!JJJJJ" ["https://example.com"; key_J; "0"] = true
  ∧ "" ≠ key_J
  ∧ (Stats "!JJJJJ" "" world_one).1
    = Error 400 "missing key from query params"
  ∧ (Stats "!JJJJJ" "" world_one).1
    ≠ NewError0 StatusUnauthorized.
Proof. repeat split; vm_compute; (reflexivity || discriminate). Qed.

(** ** Resolve and its goroutine *)

Lemma Resolve_sync_spec (slug : string) (w : World) :
  Resolve_sync slug w =
    if bool_decide (slug = "" ∨ slug = "!") then (Error 400 "missing slug", w)
    else
      match field (store w) slug 0 with
      | Some val =>
          if bool_decide (val = "") then
            (Error 400 "failed to retrieve redirect",
             after_cmds [LINDEX slug 0] (store w) w)
          else
            (Redirect val,
             (increment slug (after_cmds [LINDEX slug 0] (store w) w)).2)
      | None =>
          (Error 400 "failed to retrieve redirect",
           after_cmds [LINDEX slug 0] (store w) w)
      end.
Proof.
  unfold Resolve_sync. unfold mbind at 1, M_bind at 1.
  rewrite Resolve_spec. case_bool_decide; [done|].
  destruct (field (store w) slug 0) as [val|]; [|done].
  case_bool_decide; [done|].
  unfold mbind, M_bind, mret, M_ret, run_newest. cbn [spawned].
  rewrite reverse_snoc, reverse_involutive.
  unfold after_cmds. by destruct (increment _ _) as [[] ?].
Qed.

(** What the 1.0.0-alpha.1 Create leaves under a slug that is new to the
    store: a record of two elements. *)
Lemma Create_alpha_record (url : string) (w w' : World) (slug key : string) :
  Create_alpha url w = (JSON [("slug", slug); ("key", key)], w') →
  store w !! slug = None →
  store w' !! slug = Some [url; key] ∧ url ≠ "" ∧ ¬ (slug = "" ∨ slug = "!").
Proof.
  unfold Create_alpha. run_monad. case_bool_decide as Hu; [done|].
  destruct (ValidateUrl url); [|done]. cbn [negb].
  rewrite RandStr_spec. case_decide as H5; [|done].
  rewrite RandStr_spec. cbn [entropy]. case_decide; [|done].
  unfold Do. rewrite serve_RPUSH. cbn [ReplyError store].
  fold (next_slug (entropy w)). intros [= <- <- <-] Hfresh.
  cbn [store]. rewrite Hfresh, lookup_insert_eq.
  split; [done|]. split; [done|]. by apply next_slug_not_reserved.
Qed.

(** C10. For every stored record without a third element, Resolve answers
    with the redirect to the stored target, and the answer is fixed before
    the goroutine runs. The goroutine then reads position 2, gets no value,
    writes one line to the log and returns: it sends no LSET, and the store
    is left exactly as it was. *)
Theorem C10_resolve_record_without_counter (slug url : string)
    (tl : list string) (w : World) :
  store w !! slug = Some (url :: tl) → (length tl ≤ 1)%nat →
  url ≠ "" → ¬ (slug = "" ∨ slug = "!") →
  (Resolve slug w).1 = Redirect url
  ∧ (Resolve_sync slug w).1 = Redirect url
  ∧ store (Resolve_sync slug w).2 = store w
  ∧ sent w (Resolve_sync slug w).2 = [LINDEX slug 0; LINDEX slug 2]
  ∧ logged (Resolve_sync slug w).2
    = logged w ++ ["Failed to get clicks counter for" +:+ slug].
Proof.
  intros Hl Hlen Hu Hs.
  assert (field (store w) slug 0 = Some url) as H0
    by (unfold field; by rewrite Hl).
  rewrite Resolve_spec, Resolve_sync_spec, !(bool_decide_eq_false_2 _ Hs), H0,
    !(bool_decide_eq_false_2 _ Hu).
  rewrite increment_spec. cbn [after_cmds store]. rewrite Hl.
  assert ((url :: tl) !! 2%nat = None) as ->.
  { apply lookup_ge_None_2. cbn. lia. }
  cbn [fst snd store logged entropy trace spawned].
  repeat split. unfold sent, after_cmds. cbn [trace].
  by rewrite <- app_assoc, drop_app_length.
Qed.

Lemma C10_resolve_record_without_counter_witness :
  (Resolve "!JJJJJ" (Create_alpha "https://example.com" (boot tape_a)).2).1
  = Redirect "https://example.com"
  ∧ (Resolve_sync "!JJJJJ" (Create_alpha "https://example.com" (boot tape_a)).2).1
    = Redirect "https://example.com"
  ∧ store (Resolve_sync "!JJJJJ"
             (Create_alpha "https://example.com" (boot tape_a)).2).2
    = store (Create_alpha "https://example.com" (boot tape_a)).2
  ∧ sent (Create_alpha "https://example.com" (boot tape_a)).2
      (Resolve_sync "!JJJJJ"
         (Create_alpha "https://example.com" (boot tape_a)).2).2
    = [LINDEX "!JJJJJ" 0; LINDEX "!JJJJJ" 2]
  ∧ logged (Resolve_sync "!JJJJJ"
              (Create_alpha "https://example.com" (boot tape_a)).2).2
    = logged (Create_alpha "https://example.com" (boot tape_a)).2
      ++ ["Failed to get clicks counter for" +:+ "!JJJJJ"].
Proof.
  apply (C10_resolve_record_without_counter "!JJJJJ" "https://example.com"
           [key_J] (Create_alpha "https://example.com" (boot tape_a)).2).
  - vm_compute; reflexivity.
  - cbn; lia.
  - discriminate.
  - intros [H|H]; discriminate H.
Defined.

(** ** What the handlers do to the store *)

Lemma Resolve_store (slug : string) (w : World) :
  store (Resolve slug w).2 = store w.
Proof.
  rewrite Resolve_spec. case_bool_decide; [done|].
  destruct (field (store w) slug 0); [|done]. by case_bool_decide.
Qed.

Lemma Stats_store (slug key : string) (w : World) :
  store (Stats slug key w).2 = store w.
Proof.
  rewrite Stats_spec. do 2 (case_bool_decide; [done|]).
  destruct (field (store w) slug 1); [|done]. case_bool_decide; [done|].
  by destruct (field (store w) slug 2).
Qed.

Lemma Delete_store (slug key : string) (w : World) :
  store (Delete slug key w).2 = store w
  ∨ ((Delete slug key w).1 = SendStatus 200
     ∧ store (Delete slug key w).2 = delete slug (store w)).
Proof.
  rewrite Delete_spec. do 2 (case_bool_decide; [by left|]).
  destruct (field (store w) slug 0); [|by left].
  case_bool_decide; [by left|].
  destruct (field (store w) slug 1); [|by left].
  case_bool_decide; [by left|by right].
Qed.

Lemma increment_store (slug : string) (w : World) :
  store (increment slug w).2 = store w
  ∨ ∃ l new, store w !! slug = Some l ∧ (2 < length l)%nat
             ∧ store (increment slug w).2 = <[slug := <[2%nat := new]> l]> (store w).
Proof.
  rewrite increment_spec. destruct (store w !! slug) as [l|]; [|by left].
  destruct (l !! 2%nat) eqn:Hv; [|by left].
  right. apply lookup_lt_Some in Hv. by eexists _, _.
Qed.

Lemma run_goroutine_store (w : World) :
  store (run_goroutine w).2 = store w
  ∨ ∃ slug l new, store w !! slug = Some l ∧ (2 < length l)%nat
        ∧ store (run_goroutine w).2 = <[slug := <[2%nat := new]> l]> (store w).
Proof.
  unfold run_goroutine. destruct (spawned w) as [|slug rest]; [by left|].
  destruct (increment_store slug
              (mkWorld (store w) (entropy w) (trace w) (logged w) rest))
    as [H|(l & new & ? & ? & H)]; [by left|right].
  by exists slug, l, new.
Qed.

(** ** Every record of a running program is as Create leaves it *)

Lemma all_pick (bs : list ascii) :
  GoString.all GoString.is_alnum (GoString.of_bytes (pick <$> bs)) = true.
Proof.
  apply all_Forall. rewrite to_of_bytes. apply Forall_fmap, Forall_true.
  intros b. apply in_alphabet_alnum, pick_in_alphabet.
Qed.

Lemma next_slug_slug_ok (tape : list ascii) :
  (5 ≤ length tape)%nat → slug_ok (next_slug tape) = true.
Proof.
  intros H. unfold next_slug.
  change ("!" +:+ ?s) with (String "!" s). cbn [slug_ok].
  rewrite len_of_bytes, length_fmap, length_take, Nat.min_l by done.
  by rewrite all_pick.
Qed.

Lemma next_key_key_ok (tape : list ascii) :
  (69 ≤ length tape)%nat → key_ok (next_key tape) = true.
Proof.
  intros H. unfold next_key, key_ok.
  rewrite len_of_bytes, length_fmap, length_take, length_drop, Nat.min_l by lia.
  by rewrite all_pick.
Qed.

Lemma record_ok_app (slug : string) (l l' : list string) :
  record_ok slug l = true → record_ok slug (l ++ l') = true.
Proof. by destruct l as [|url [|key rest]]. Qed.

Lemma record_ok_set_counter (slug new : string) (l : list string) :
  record_ok slug l = true → record_ok slug (<[2%nat := new]> l) = true.
Proof. by destruct l as [|url [|key rest]]. Qed.

Lemma step_store_ok (e : Event) (w : World) :
  store_ok (store w) → store_ok (store (step e w).2).
Proof.
  intros Hok. destruct e as [[url|slug|slug key|slug key]|]; cbn [step handle];
    unfold mbind, M_bind, mret, M_ret.
  - destruct (Create url w) as [resp w'] eqn:H. cbn [snd].
    destruct (Create_cases _ _ _ _ H) as [[_ ->]|[fields ->]]; [done|].
    apply Create_inv in H as (_ & _ & Hv & Hn & -> & _).
    intros slug l. destruct (decide (slug = next_slug (entropy w))) as [->|Hne].
    + rewrite lookup_insert_eq. intros [= <-].
      destruct (store w !! next_slug (entropy w)) as [l0|] eqn:Hl0; cbn.
      * by apply record_ok_app, Hok.
      * rewrite next_slug_slug_ok, Hv, next_key_key_ok by lia. done.
    + rewrite lookup_insert_ne by done. apply Hok.
  - pose proof (Resolve_store slug w) as H.
    destruct (Resolve slug w). cbn [snd] in *. by rewrite H.
  - pose proof (Stats_store slug key w) as H.
    destruct (Stats slug key w). cbn [snd] in *. by rewrite H.
  - pose proof (Delete_store slug key w) as H.
    destruct (Delete slug key w). cbn [snd] in *.
    destruct H as [->|[_ ->]]; [done|].
    intros k l Hl. apply lookup_delete_Some in Hl as [_ Hl]. by apply Hok.
  - pose proof (run_goroutine_store w) as H.
    destruct (run_goroutine w). cbn [snd] in *.
    destruct H as [->|(slug & l & new & Hl & _ & ->)]; [done|].
    intros k l'. destruct (decide (k = slug)) as [->|Hne].
    + rewrite lookup_insert_eq. intros [= <-].
      by apply record_ok_set_counter, Hok.
    + rewrite lookup_insert_ne by done. apply Hok.
Qed.

(** a step adds a key to the store only as the slug of a Create response *)
Lemma step_new_key (e : Event) (w : World) (slug : string) :
  is_Some (store (step e w).2 !! slug) →
  is_Some (store w !! slug) ∨ slug ∈ created_slugs [(step e w).1].
Proof.
  destruct e as [[url|s|s key|s key]|]; cbn [step handle];
    unfold mbind, M_bind, mret, M_ret.
  - destruct (Create url w) as [resp w'] eqn:H. cbn [fst snd].
    destruct (Create_cases _ _ _ _ H) as [[_ ->]|[fields ->]]; [by left|].
    apply Create_inv in H as (-> & _ & _ & _ & -> & _).
    destruct (decide (slug = next_slug (entropy w))) as [->|Hne].
    + intros _. right. cbn. apply list_elem_of_singleton. done.
    + rewrite lookup_insert_ne by done. by left.
  - pose proof (Resolve_store s w) as H.
    destruct (Resolve s w). cbn [snd] in *. rewrite H. by left.
  - pose proof (Stats_store s key w) as H.
    destruct (Stats s key w). cbn [snd] in *. rewrite H. by left.
  - pose proof (Delete_store s key w) as H.
    destruct (Delete s key w). cbn [snd] in *.
    destruct H as [->|[_ ->]]; [by left|].
    intros [l Hl]. apply lookup_delete_Some in Hl as [_ Hl]. left. by eexists.
  - pose proof (run_goroutine_store w) as H.
    destruct (run_goroutine w). cbn [snd] in *.
    destruct H as [->|(k & l & new & Hl & _ & ->)]; [by left|].
    destruct (decide (slug = k)) as [->|Hne]; [left; by eexists|].
    rewrite lookup_insert_ne by done. by left.
Qed.

Lemma steps_cons (e : Event) (es : list Event) (w : World) :
  steps (e :: es) w
  = ((step e w).1 :: (steps es (step e w).2).1, (steps es (step e w).2).2).
Proof.
  cbn [steps]. unfold mbind, M_bind, mret, M_ret.
  destruct (step e w) as [r w1]. cbn [fst snd]. by destruct (steps es w1).
Qed.

Lemma created_slugs_cons (r : option Response) (rs : list (option Response)) :
  created_slugs (r :: rs) = created_slugs [r] ++ created_slugs rs.
Proof. unfold created_slugs. cbn. by rewrite app_nil_r. Qed.

Lemma steps_invariant (es : list Event) (w : World) :
  store_ok (store w) →
  store_ok (store (steps es w).2)
  ∧ ∀ slug, is_Some (store (steps es w).2 !! slug) →
      is_Some (store w !! slug) ∨ slug ∈ created_slugs (steps es w).1.
Proof.
  revert w. induction es as [|e es IH]; intros w Hok; [by split; auto|].
  rewrite steps_cons. cbn [fst snd].
  destruct (IH (step e w).2 (step_store_ok e w Hok)) as [Hok' Hnew].
  split; [done|]. intros slug Hs. rewrite created_slugs_cons.
  destruct (Hnew slug Hs) as [Hs'|Hin]; [|right; apply elem_of_app; by right].
  destruct (step_new_key e w slug Hs');
    [by left|right; apply elem_of_app; by left].
Qed.

(** In every world the program can reach after start, every stored list is a
    record as Create leaves it. *)
Lemma reachable_store_ok (tape : list ascii) (es : list Event) :
  store_ok (store (steps es (boot tape)).2).
Proof. by apply steps_invariant. Qed.

(** ** Resolve of a slug that was never created *)

(** C6. Start the program, let any requests come in and any goroutines run,
    and take a slug that no Create response has handed out, other than the
    empty string and the bare sentinel. Resolve of it fails with the
    not-found error (400, failed to retrieve redirect), is no redirect,
    starts no goroutine and leaves the store alone. *)
Theorem C6_resolve_never_created (tape : list ascii) (es : list Event)
    (slug : string) :
  slug ∉ created_slugs (steps es (boot tape)).1 →
  slug ≠ "" → slug ≠ "!" →
  store (steps es (boot tape)).2 !! slug = None
  ∧ (Resolve slug (steps es (boot tape)).2).1
    = Error 400 "failed to retrieve redirect"
  ∧ (∀ url, (Resolve slug (steps es (boot tape)).2).1 ≠ Redirect url)
  ∧ store (Resolve slug (steps es (boot tape)).2).2
    = store (steps es (boot tape)).2
  ∧ spawned (Resolve slug (steps es (boot tape)).2).2
    = spawned (steps es (boot tape)).2.
Proof.
  intros Hnew H1 H2.
  assert (store (steps es (boot tape)).2 !! slug = None) as Hnone.
  { apply eq_None_not_Some. intros Hs.
    destruct (steps_invariant es (boot tape)) as [_ Hk]; [done|].
    destruct (Hk slug Hs) as [[? Hb]|Hin]; [|done].
    cbn in Hb. by rewrite lookup_empty in Hb. }
  split; [done|]. rewrite Resolve_spec.
  rewrite bool_decide_eq_false_2 by (by intros [?|?]).
  unfold field. rewrite Hnone. cbn. done.
Qed.

Lemma C6_resolve_never_created_witness :
  store (steps [Incoming (ReqCreate "https://example.com");
                Incoming (ReqResolve "!JJJJJ"); Scheduled]
           (boot tape_a)).2 !! "!zzzzz" = None
  ∧ (Resolve "!zzzzz"
       (steps [Incoming (ReqCreate "https://example.com");
               Incoming (ReqResolve "!JJJJJ"); Scheduled]
          (boot tape_a)).2).1
    = Error 400 "failed to retrieve redirect"
  ∧ (∀ url,
       (Resolve "!zzzzz"
          (steps [Incoming (ReqCreate "https://example.com");
                  Incoming (ReqResolve "!JJJJJ"); Scheduled]
             (boot tape_a)).2).1 ≠ Redirect url)
  ∧ store (Resolve "!zzzzz"
             (steps [Incoming (ReqCreate "https://example.com");
                     Incoming (ReqResolve "!JJJJJ"); Scheduled]
                (boot tape_a)).2).2
    = store (steps [Incoming (ReqCreate "https://example.com");
                    Incoming (ReqResolve "!JJJJJ"); Scheduled]
               (boot tape_a)).2
  ∧ spawned (Resolve "!zzzzz"
               (steps [Incoming (ReqCreate "https://example.com");
                       Incoming (ReqResolve "!JJJJJ"); Scheduled]
                  (boot tape_a)).2).2
    = spawned (steps [Incoming (ReqCreate "https://example.com");
                      Incoming (ReqResolve "!JJJJJ"); Scheduled]
                 (boot tape_a)).2.
Proof.
  apply (C6_resolve_never_created tape_a
           [Incoming (ReqCreate "https://example.com");
            Incoming (ReqResolve "!JJJJJ"); Scheduled] "!zzzzz").
  - apply (bool_decide_unpack _). vm_compute. exact I.
  - discriminate.
  - discriminate.
Defined.

(** ** Decimal numerals *)

Lemma digits_of_uint_acc (d : Decimal.uint) (acc : positive) :
  GoInt.digits (Z.pos acc) (NilEmpty.string_of_uint d)
  = Some (Z.pos (Pos.of_uint_acc d acc)).
Proof.
  revert acc. induction d; intros acc; cbn [NilEmpty.string_of_uint
    GoInt.digits Pos.of_uint_acc]; [done|..];
    (match goal with |- context [GoInt.digit ?c] =>
       let v := eval vm_compute in (GoInt.digit c) in
       change (GoInt.digit c) with v end);
    cbn beta iota; rewrite <- IHd; f_equal; lia.
Qed.

Lemma digits_of_uint (d : Decimal.uint) :
  GoInt.digits 0 (NilEmpty.string_of_uint d) = Some (Z.of_uint d).
Proof.
  unfold Z.of_uint.
  induction d; cbn [NilEmpty.string_of_uint GoInt.digits Pos.of_uint];
    [done|..];
    (match goal with |- context [GoInt.digit ?c] =>
       let v := eval vm_compute in (GoInt.digit c) in
       change (GoInt.digit c) with v end);
    cbn beta iota; [exact IHd|..]; apply digits_of_uint_acc.
Qed.

Lemma digit_range (ch : ascii) (d : Z) : GoInt.digit ch = Some d → 0 ≤ d ≤ 9.
Proof.
  unfold GoInt.digit. cbn zeta.
  destruct (Z.leb_spec 0 (GoString.code ch - 48)),
           (Z.leb_spec (GoString.code ch - 48) 9); cbn; intros [= <-]; lia.
Qed.

Lemma digits_grow (s : string) (n v : Z) :
  GoInt.digits n s = Some v → 0 ≤ n → n ≤ v.
Proof.
  revert n. induction s as [|ch s IH]; intros n; cbn [GoInt.digits].
  - intros [= <-] _. lia.
  - destruct (GoInt.digit ch) as [d|] eqn:Hd; [|done].
    apply digit_range in Hd. intros H Hn. apply IH in H; lia.
Qed.

(** On a text of digits whose number fits 64 bits, the loop of ParseUint
    never sees an overflow and yields the number. *)
Lemma ParseUint_loop_digits (s : string) (n v : Z) :
  GoInt.digits n s = Some v → 0 ≤ n → v ≤ GoInt.max_uint →
  GoInt.ParseUint_loop n s = GoInt.Parsed v.
Proof.
  revert n. induction s as [|ch s IH]; intros n;
    cbn [GoInt.digits GoInt.ParseUint_loop].
  - by intros [= <-].
  - destruct (GoInt.digit ch) as [d|] eqn:Hd; [|done].
    apply digit_range in Hd. intros H Hn Hv.
    pose proof (digits_grow _ _ _ H ltac:(lia)) as Hle.
    unfold GoInt.max_uint in *.
    destruct (Z.leb_spec (((2 ^ 64 - 1) / 10) + 1) n) as [Hc|Hc].
    { change ((2 ^ 64 - 1) / 10 + 1) with 1844674407370955162 in Hc. lia. }
    cbn zeta. destruct (Z.ltb_spec (2 ^ 64 - 1) (n * 10 + d)); [lia|].
    apply IH; (done || lia).
Qed.

(** a numeral without sign is read digit by digit, on either path *)
Lemma Atoi_unsigned (ch : ascii) (rest : string) (v : Z) :
  is_Some (GoInt.digit ch) →
  GoInt.digits 0 (String ch rest) = Some v → v ≤ GoInt.max_int →
  GoInt.Atoi (String ch rest) = (v, None).
Proof.
  intros Hd Hv Hmax.
  assert (ch ≠ "-"%char ∧ ch ≠ "+"%char) as [Hm Hp].
  { split; intros ->; vm_compute in Hd; by destruct Hd. }
  unfold GoInt.Atoi. cbn zeta.
  destruct ((0 <? GoString.len (String ch rest))%nat
            && (GoString.len (String ch rest) <? 19)%nat).
  - rewrite bool_decide_eq_false_2 by (by intros [?|?]). cbn [andb].
    by rewrite Hv, bool_decide_eq_false_2.
  - unfold GoInt.ParseInt. cbn zeta.
    rewrite (bool_decide_eq_false_2 (ch = "-"%char)) by done.
    rewrite bool_decide_eq_false_2 by (by intros [?|?]).
    unfold GoInt.ParseUint.
    rewrite (ParseUint_loop_digits _ _ v Hv);
      [|done|unfold GoInt.max_int, GoInt.max_uint in *; lia].
    cbn [negb andb]. unfold GoInt.max_int in Hmax.
    destruct (Z.leb_spec (2 ^ 63) v); [lia|done].
Qed.

Lemma string_of_uint_head (d : Decimal.uint) :
  d ≠ Decimal.Nil →
  ∃ ch rest, NilEmpty.string_of_uint d = String ch rest
             ∧ is_Some (GoInt.digit ch).
Proof.
  destruct d; [done|..]; intros _; eexists _, _; (split; [done|]);
    vm_compute; by eexists.
Qed.

(** Atoi reads back what Sprint writes, for every non-negative [int]. *)
Lemma Atoi_Sprint (c : Z) :
  0 ≤ c ≤ GoInt.max_int → GoInt.Atoi (GoInt.Sprint c) = (c, None).
Proof.
  intros [H0 Hmax]. destruct c as [|p|p]; [done| |lia].
  unfold GoInt.Sprint. cbn [Z.to_int NilZero.string_of_int].
  pose proof (Unsigned.to_uint_nonnil p) as Hnil.
  unfold NilZero.string_of_uint.
  destruct (string_of_uint_head _ Hnil) as (ch & rest & E & Hd).
  replace (match Pos.to_uint p with
           | Decimal.Nil => "0"
           | _ => NilEmpty.string_of_uint (Pos.to_uint p)
           end) with (NilEmpty.string_of_uint (Pos.to_uint p))
    by (by destruct (Pos.to_uint p)).
  rewrite E. apply Atoi_unsigned; [done| |done].
  rewrite <- E, digits_of_uint. unfold Z.of_uint.
  by rewrite Unsigned.of_to.
Qed.

Lemma wrap_small (z : Z) :
  GoInt.min_int ≤ z ≤ GoInt.max_int → GoInt.wrap z = z.
Proof.
  unfold GoInt.wrap, GoInt.min_int, GoInt.max_int. intros H.
  rewrite Z.mod_small; lia.
Qed.

(** ** The click counter *)

(** No handler writes a counter: after any request, position 2 of every
    record reads as before, unless the request was a Delete that removed
    the record. *)
Lemma handle_keeps_counter (q : Request) (w : World) (k v : string) :
  field (store w) k 2 = Some v →
  field (store (handle q w).2) k 2 = Some v
  ∨ (∃ key, q = ReqDelete k key ∧ (handle q w).1 = SendStatus 200
            ∧ store (handle q w).2 !! k = None).
Proof.
  intros Hv. destruct q as [url|slug|slug key|slug key]; cbn [handle].
  - left. unfold field in *. destruct (store w !! k) as [l|] eqn:Hl; [|done].
    destruct (Create_extends url w _ _ (surjective_pairing _) k l Hl)
      as [l' ->]. cbn in *. by apply lookup_app_l_Some.
  - left. by rewrite Resolve_store.
  - left. by rewrite Stats_store.
  - destruct (Delete_store slug key w) as [->|[Hr Hst]]; [by left|].
    destruct (decide (k = slug)) as [->|Hne].
    + right. exists key. rewrite Hst. by rewrite lookup_delete_eq.
    + left. unfold field. by rewrite Hst, lookup_delete_ne.
Qed.

(** No handler sends LSET: among the code in reach of a request, only the
    goroutine writes into a list. *)
Lemma handle_sends_no_LSET (q : Request) (w : World) :
  Forall (λ c, ∀ k i x, c ≠ LSET k i x) (sent w (handle q w).2).
Proof.
  destruct q as [url|slug|slug key|slug key]; cbn [handle].
  - rewrite Create_spec. case_bool_decide;
      [|destruct (ValidateUrl url); cbn [negb];
        [case_decide; [case_decide|]|]];
      cbn [snd]; unfold sent; cbn [trace];
      rewrite ?drop_all, ?drop_app_length; repeat constructor; done.
  - rewrite Resolve_spec.
    repeat first [case_bool_decide | destruct (field _ _ _) ];
      cbn [snd]; unfold sent, after_cmds; cbn [trace];
      rewrite ?drop_all, ?drop_app_length; repeat constructor; done.
  - rewrite Stats_spec.
    repeat first [case_bool_decide | destruct (field _ _ _) ];
      cbn [snd]; unfold sent, after_cmds; cbn [trace];
      rewrite ?drop_all, ?drop_app_length; repeat constructor; done.
  - rewrite Delete_spec.
    repeat first [case_bool_decide | destruct (field _ _ _) ];
      cbn [snd]; unfold sent, after_cmds; cbn [trace];
      rewrite ?drop_all, ?drop_app_length; repeat constructor; done.
Qed.

(** A goroutine is started by a Resolve that answers with a redirect, and by
    nothing else. *)
Lemma handle_spawns (q : Request) (w : World) :
  spawned (handle q w).2 = spawned w
  ∨ ∃ slug val, q = ReqResolve slug ∧ (handle q w).1 = Redirect val
                ∧ field (store w) slug 0 = Some val
                ∧ spawned (handle q w).2 = spawned w ++ [slug].
Proof.
  destruct q as [url|slug|slug key|slug key]; cbn [handle].
  - left. rewrite Create_spec. case_bool_decide; [done|].
    destruct (ValidateUrl url); cbn [negb]; [|done].
    case_decide; [|done]. by case_decide.
  - rewrite Resolve_spec. case_bool_decide; [by left|].
    destruct (field (store w) slug 0) as [val|] eqn:Hv; [|by left].
    case_bool_decide; [by left|]. right. by exists slug, val.
  - left. rewrite Stats_spec.
    repeat first [case_bool_decide | destruct (field _ _ _) ]; done.
  - left. rewrite Delete_spec.
    repeat first [case_bool_decide | destruct (field _ _ _) ]; done.
Qed.

(** Any number of Stats calls in a row leave the store as it is. *)
Lemma stats_calls_store (calls : list (string * string)) (w : World) :
  store (steps ((λ sk, Incoming (ReqStats sk.1 sk.2)) <$> calls) w).2
  = store w.
Proof.
  revert w. induction calls as [|[s k] calls IH]; intros w; [done|].
  rewrite fmap_cons, steps_cons. cbn [fst snd]. rewrite IH.
  cbn [step handle]. unfold mbind, M_bind, mret, M_ret.
  pose proof (Stats_store s k w) as H. by destruct (Stats s k w).
Qed.

(** A Resolve with its goroutine, on a record whose counter is the numeral
    of [c]: the counter becomes the numeral of [c + 1] wrapped into [int]. *)
Lemma Resolve_sync_counter (slug url val : string) (l : list string)
    (w : World) :
  store w !! slug = Some l → l !! 0%nat = Some url → l !! 2%nat = Some val →
  url ≠ "" → ¬ (slug = "" ∨ slug = "!") →
  (Resolve_sync slug w).1 = Redirect url
  ∧ store (Resolve_sync slug w).2
    = <[slug := <[2%nat := GoInt.Sprint
                              (GoInt.wrap ((GoInt.Atoi val).1 + 1))]> l]>
        (store w).
Proof.
  intros Hl H0 H2 Hu Hs.
  assert (field (store w) slug 0 = Some url) as Hf
    by (unfold field; by rewrite Hl).
  rewrite Resolve_sync_spec, (bool_decide_eq_false_2 _ Hs), Hf,
    (bool_decide_eq_false_2 _ Hu).
  split; [done|]. cbn [snd]. rewrite increment_spec.
  cbn [after_cmds store]. by rewrite Hl, H2.
Qed.

(** C9, as the code has it. No handler writes a counter or sends LSET: after
    any request position 2 of every record reads as before, unless a Delete
    removed the record. The goroutine that increments is started by a
    Resolve that found a target to redirect to, and by nothing else. For a
    record whose counter is the decimal numeral of [c], with [c] at least 0
    and below the largest [int], a Resolve with its goroutine leaves the
    numeral of [c + 1] at position 2 and nothing else changed. Any number of
    Stats calls in a row leave the store, and so the counter, as they were. *)
Theorem C9_counter_changes_only_by_resolve (slug url : string) (c : Z)
    (l : list string) (w : World) :
  store w !! slug = Some l →
  l !! 0%nat = Some url → l !! 2%nat = Some (GoInt.Sprint c) →
  url ≠ "" → ¬ (slug = "" ∨ slug = "!") →
  0 ≤ c < GoInt.max_int →
  (∀ q k v, field (store w) k 2 = Some v →
     field (store (handle q w).2) k 2 = Some v
     ∨ (∃ key, q = ReqDelete k key ∧ (handle q w).1 = SendStatus 200
               ∧ store (handle q w).2 !! k = None))
  ∧ (∀ q, Forall (λ cmd, ∀ k i x, cmd ≠ LSET k i x) (sent w (handle q w).2))
  ∧ (∀ q, spawned (handle q w).2 = spawned w
          ∨ ∃ s val, q = ReqResolve s ∧ (handle q w).1 = Redirect val
                     ∧ field (store w) s 0 = Some val
                     ∧ spawned (handle q w).2 = spawned w ++ [s])
  ∧ ((Resolve_sync slug w).1 = Redirect url
     ∧ field (store (Resolve_sync slug w).2) slug 2
       = Some (GoInt.Sprint (c + 1))
     ∧ store (Resolve_sync slug w).2
       = <[slug := <[2%nat := GoInt.Sprint (c + 1)]> l]> (store w))
  ∧ (∀ calls,
       store (steps ((λ sk, Incoming (ReqStats sk.1 sk.2)) <$> calls) w).2
       = store w).
Proof.
  intros Hl H0 H2 Hu Hs Hc.
  split; [intros q k v; apply handle_keeps_counter|].
  split; [intros q; apply handle_sends_no_LSET|].
  split; [intros q; apply handle_spawns|].
  split; [|intros calls; apply stats_calls_store].
  destruct (Resolve_sync_counter slug url _ l w Hl H0 H2 Hu Hs) as [Hr Hst].
  rewrite Atoi_Sprint in Hst by (unfold GoInt.max_int in *; lia).
  cbn [fst] in Hst.
  rewrite wrap_small in Hst
    by (unfold GoInt.max_int, GoInt.min_int in *; lia).
  split; [done|]. split; [|done].
  unfold field. rewrite Hst, lookup_insert_eq. cbn.
  apply list_lookup_insert_eq. by apply lookup_lt_Some in H2.
Qed.

Lemma C9_counter_changes_only_by_resolve_witness :
  (Resolve_sync "!JJJJJ" world_one).1 = Redirect "https://example.com"
  ∧ field (store (Resolve_sync "!JJJJJ" world_one).2) "!JJJJJ" 2
    = Some (GoInt.Sprint (0 + 1))
  ∧ store (Resolve_sync "!JJJJJ" world_one).2
    = <["!JJJJJ" := <[2%nat := GoInt.Sprint (0 + 1)]>
                      ["https://example.com"; key_J; "0"]]>
        (store world_one).
Proof.
  apply (C9_counter_changes_only_by_resolve "!JJJJJ" "https://example.com" 0
           ["https://example.com"; key_J; "0"] world_one).
  - vm_compute; reflexivity.
  - reflexivity.
  - reflexivity.
  - discriminate.
  - intros [H|H]; discriminate H.
  - unfold GoInt.max_int. lia.
Defined.

(** C9 as stated fails at the largest [int]: the record holds the decimal
    counter 9223372036854775807, Resolve redirects, and its goroutine leaves
    the counter at -9223372036854775808, which is not the numeral of the
    counter plus one, and is not an increase. *)
Lemma C9_counterexample_largest_int :
  field (store world_max) "!JJJJJ" 2 = Some (GoInt.Sprint 9223372036854775807)
  ∧ (Resolve_sync "!JJJJJ" world_max).1 = Redirect "https://example.com"
  ∧ field (store (Resolve_sync "!JJJJJ" world_max).2) "!JJJJJ" 2
    = Some (GoInt.Sprint (-9223372036854775808))
  ∧ field (store (Resolve_sync "!JJJJJ" world_max).2) "!JJJJJ" 2
    ≠ Some (GoInt.Sprint (9223372036854775807 + 1)).
Proof. repeat split; vm_compute; (reflexivity || discriminate). Qed.

(** ** The matcher and what a pattern denotes *)

Lemma rep_spec (p : ascii → bool) (min pos : nat) (s : list ascii)
    (k : nat → list ascii → bool) :
  Regexp.rep p min pos s k = true ↔
  ∃ m rest, s = m ++ rest ∧ (min ≤ length m)%nat ∧ forallb p m = true
            ∧ k (pos + length m)%nat rest = true.
Proof.
  revert min pos. induction s as [|c s IH]; intros min pos; cbn [Regexp.rep].
  - rewrite orb_false_r. split.
    + destruct min; [|done]. intros Hk. exists [], [].
      rewrite Nat.add_0_r. repeat split; (done || cbn; lia).
    + intros (m & rest & E & Hmin & _ & Hk).
      symmetry in E. apply app_eq_nil in E as [-> ->]. cbn in Hmin.
      destruct min; [|lia]. by rewrite Nat.add_0_r in Hk.
  - rewrite orb_true_iff, andb_true_iff, IH. split.
    + intros [Hk|(Hc & m & rest & -> & Hmin & Hall & Hk)].
      * destruct min; [|done]. exists [], (c :: s).
        rewrite Nat.add_0_r. repeat split; (done || cbn; lia).
      * exists (c :: m), rest. cbn [length forallb]. rewrite Hc, Hall.
        rewrite Nat.add_succ_r. repeat split; (done || lia).
    + intros (m & rest & E & Hmin & Hall & Hk). destruct m as [|c' m].
      * left. cbn in Hmin, E. destruct min; [|lia].
        subst rest. by rewrite Nat.add_0_r in Hk.
      * right. injection E as <- ->. cbn [forallb length] in *.
        apply andb_true_iff in Hall as [Hc Hall]. split; [done|].
        exists m, rest. rewrite Nat.add_succ_r in Hk.
        repeat split; (done || lia).
Qed.

(** The matcher accepts exactly when the pattern denotes a prefix of the
    text and the continuation accepts what is left. *)
Lemma run_spec (r : Regexp.t) (pos : nat) (s : list ascii)
    (k : nat → list ascii → bool) :
  Regexp.run r pos s k = true ↔
  ∃ m rest, s = m ++ rest ∧ den r pos m rest
            ∧ k (pos + length m)%nat rest = true.
Proof.
  revert pos s k.
  induction r as [|c|ranges| | |r1 IH1 r2 IH2|r1 IH1 r2 IH2|min ranges];
    intros pos s k; cbn [Regexp.run den].
  - split.
    + intros Hk. exists [], s. by rewrite Nat.add_0_r.
    + intros (m & rest & -> & -> & Hk). by rewrite Nat.add_0_r in Hk.
  - split.
    + destruct s as [|c' s]; [done|].
      intros [->%bool_decide_eq_true Hk]%andb_true_iff.
      exists [c], s. by rewrite Nat.add_1_r.
    + intros (m & rest & -> & -> & Hk). cbn.
      rewrite bool_decide_eq_true_2 by done. by rewrite Nat.add_1_r in Hk.
  - split.
    + destruct s as [|c' s]; [done|].
      intros [Hc Hk]%andb_true_iff.
      exists [c'], s. rewrite Nat.add_1_r. eauto.
    + intros (m & rest & -> & (c & -> & Hc) & Hk). cbn.
      rewrite Hc. by rewrite Nat.add_1_r in Hk.
  - split.
    + intros [->%Nat.eqb_eq Hk]%andb_true_iff. by exists [], s.
    + intros (m & rest & -> & [-> ->] & Hk). done.
  - split.
    + destruct s; [|done]. intros Hk. exists [], [].
      by rewrite Nat.add_0_r.
    + intros (m & rest & -> & [-> ->] & Hk). by rewrite Nat.add_0_r in Hk.
  - rewrite IH1. split.
    + intros (m1 & rest1 & -> & H1 & (m2 & rest & -> & H2 & Hk)%IH2).
      exists (m1 ++ m2), rest. rewrite <- app_assoc, length_app, Nat.add_assoc.
      split; [done|]. split; [|done]. by exists m1, m2.
    + intros (m & rest & -> & (m1 & m2 & -> & H1 & H2) & Hk).
      exists m1, (m2 ++ rest). rewrite <- app_assoc.
      split; [done|]. split; [done|]. apply IH2.
      exists m2, rest. by rewrite length_app, Nat.add_assoc in Hk.
  - rewrite orb_true_iff, IH1, IH2. split.
    + intros [(m & rest & ? & ? & ?)|(m & rest & ? & ? & ?)];
        exists m, rest; auto.
    + intros (m & rest & ? & [?|?] & ?); [left|right]; by exists m, rest.
  - rewrite rep_spec. split.
    + intros (m & rest & ? & ? & ? & ?). by exists m, rest.
    + intros (m & rest & ? & [? ?] & ?). by exists m, rest.
Qed.

(** The search accepts exactly when the pattern denotes some part of the
    text. *)
Lemma search_spec (r : Regexp.t) (pos : nat) (s : list ascii) :
  Regexp.search r pos s = true ↔
  ∃ pre m rest, s = pre ++ m ++ rest ∧ den r (pos + length pre)%nat m rest.
Proof.
  revert pos. induction s as [|c s IH]; intros pos; cbn [Regexp.search];
    rewrite orb_true_iff, run_spec.
  - split.
    + intros [(m & rest & E & H & _)|?]; [|done].
      exists [], m, rest. by rewrite Nat.add_0_r.
    + intros (pre & m & rest & E & H). left.
      symmetry in E. apply app_eq_nil in E as [-> E].
      rewrite Nat.add_0_r in H. by exists m, rest.
  - rewrite IH. split.
    + intros [(m & rest & E & H & _)|(pre & m & rest & -> & H)].
      * exists [], m, rest. by rewrite Nat.add_0_r.
      * exists (c :: pre), m, rest. cbn [length]. by rewrite Nat.add_succ_r.
    + intros ([|c' pre] & m & rest & E & H).
      * left. rewrite Nat.add_0_r in H. by exists m, rest.
      * right. injection E as <- ->. exists pre, m, rest.
        cbn [length] in H. by rewrite Nat.add_succ_r in H.
Qed.

Lemma den_Str (s : string) (pos : nat) (m rest : list ascii) :
  den (Regexp.Str s) pos m rest ↔ m = GoString.to_bytes s.
Proof.
  revert pos m. induction s as [|c s IH]; intros pos m; cbn [Regexp.Str den].
  - done.
  - split.
    + intros (m1 & m2 & -> & -> & H%IH). by subst.
    + intros ->. exists [c], (GoString.to_bytes s). split; [done|].
      split; [done|]. by apply IH.
Qed.

(** ** The URL pattern *)

Lemma url_pattern_alternatives :
  url_pattern = Regexp.Alternate (anchored "http://") (anchored "https://").
Proof. reflexivity. Qed.

Lemma den_anchored (opening : string) (pos : nat) (m rest : list ascii) :
  den (anchored opening) pos m rest ↔
  pos = 0%nat ∧ rest = []
  ∧ ∃ host tld,
      m = GoString.to_bytes opening ++ host ++ "."%char :: tld
      ∧ (1 ≤ length host)%nat
      ∧ forallb (Regexp.class_mem host_class) host = true
      ∧ (2 ≤ length tld)%nat
      ∧ forallb (Regexp.class_mem tld_class) tld = true.
Proof.
  unfold anchored. cbn [Regexp.Seq den]. split.
  - intros (m1 & m2 & -> & [-> ->] & m3 & m4 & -> & H3%den_Str
            & m5 & m6 & -> & [H5 H5'] & m7 & m8 & -> & ->
            & m9 & m10 & -> & [H9 H9'] & m11 & m12 & -> & [-> E] & ->).
    cbn in E. subst rest. split; [done|]. split; [done|].
    exists m5, m9. subst m3. cbn. by rewrite !app_nil_r.
  - intros (-> & -> & host & tld & -> & Hh & Hh' & Ht & Ht').
    exists [], (GoString.to_bytes opening ++ host ++ "."%char :: tld).
    split; [done|]. split; [done|].
    exists (GoString.to_bytes opening), (host ++ "."%char :: tld).
    split; [done|]. split; [by apply den_Str|].
    exists host, ("."%char :: tld). split; [done|]. split; [done|].
    exists ["."%char], tld. split; [done|]. split; [done|].
    exists tld, []. split; [by rewrite app_nil_r|]. split; [done|].
    by exists [], [].
Qed.

Lemma host_class_mem (c : ascii) : Regexp.class_mem host_class c = host_char c.
Proof. destruct c as [[] [] [] [] [] [] [] []]; vm_compute; reflexivity. Qed.

Lemma tld_class_mem (c : ascii) :
  Regexp.class_mem tld_class c = GoString.is_letter c.
Proof. destruct c as [[] [] [] [] [] [] [] []]; vm_compute; reflexivity. Qed.

Lemma forallb_ext_eq {A} (f g : A → bool) (l : list A) :
  (∀ x, f x = g x) → forallb f l = forallb g l.
Proof. intros H. induction l as [|x l IH]; [done|]. cbn. by rewrite H, IH. Qed.

(** The validator accepts exactly the texts that open with [http://] or
    [https://] and go on with a host, a dot and a top-level label. *)
Lemma ValidateUrl_bytes (s : string) :
  ValidateUrl s = true ↔
  ∃ opening host tld,
    (opening = "http://" ∨ opening = "https://")
    ∧ GoString.to_bytes s
      = GoString.to_bytes opening ++ host ++ "."%char :: tld
    ∧ (1 ≤ length host)%nat ∧ forallb host_char host = true
    ∧ (2 ≤ length tld)%nat ∧ forallb GoString.is_letter tld = true.
Proof.
  unfold ValidateUrl, Regexp.MatchString.
  rewrite search_spec, url_pattern_alternatives. cbn [den]. split.
  - intros (pre & m & rest & E & H).
    assert (∃ opening, (opening = "http://" ∨ opening = "https://")
                       ∧ den (anchored opening) (0 + length pre) m rest)
      as (opening & Ho & Hd) by (destruct H; eauto).
    apply den_anchored in Hd as (Hp & -> & host & tld & -> & ? & Hh & ? & Ht).
    destruct pre; [|done]. rewrite app_nil_r in E. cbn in E.
    exists opening, host, tld.
    rewrite (forallb_ext_eq _ _ _ host_class_mem) in Hh.
    rewrite (forallb_ext_eq _ _ _ tld_class_mem) in Ht. done.
  - intros (opening & host & tld & Ho & E & ? & Hh & ? & Ht).
    exists [], (GoString.to_bytes s), []. rewrite app_nil_r.
    split; [done|].
    assert (den (anchored opening) (0 + length (@nil ascii))
              (GoString.to_bytes s) []) as Hd.
    { apply den_anchored. split; [done|]. split; [done|].
      exists host, tld.
      rewrite (forallb_ext_eq _ _ _ host_class_mem),
              (forallb_ext_eq _ _ _ tld_class_mem). done. }
    destruct Ho as [-> | ->]; [by left|by right].
Qed.

Lemma all_of_bytes (p : ascii → bool) (l : list ascii) :
  GoString.all p (GoString.of_bytes l) = forallb p l.
Proof. unfold GoString.all. by rewrite to_of_bytes. Qed.

Lemma host_char_letter (c : ascii) :
  GoString.is_letter c = true → host_char c = true.
Proof.
  unfold host_char, GoString.is_alnum. intros ->. done.
Qed.

Lemma host_char_not_separator (c : ascii) :
  host_char c = true → c ≠ "/"%char ∧ c ≠ "?"%char ∧ c ≠ ":"%char.
Proof. intros H. repeat split; intros ->; vm_compute in H; discriminate. Qed.

(** C7. ValidateUrl(s) is true exactly when s is, in the words of the
    specification, a scheme http or https, the literal ://, a host of one or
    more alphanumerics, hyphens and dots, a dot, and a top-level label of two
    or more letters, with nothing after it. In particular a string that has a
    slash (a path), a question mark (a query) or a colon (a port) anywhere
    after the scheme and :// is rejected. *)
Theorem C7_validate_url (s : string) :
  (ValidateUrl s = true ↔ spec_valid_url s)
  ∧ (∀ scheme rest c,
       s = scheme +:+ "://" +:+ rest →
       scheme = "http" ∨ scheme = "https" →
       c ∈ GoString.to_bytes rest →
       c = "/"%char ∨ c = "?"%char ∨ c = ":"%char →
       ValidateUrl s = false).
Proof.
  split.
  - rewrite ValidateUrl_bytes. unfold spec_valid_url. split.
    + intros (opening & host & tld & Ho & E & Hh & Hh' & Ht & Ht').
      exists (if bool_decide (opening = "http://") then "http" else "https"),
        (GoString.of_bytes host), (GoString.of_bytes tld).
      rewrite !len_of_bytes, !all_of_bytes.
      split; [|by case_bool_decide; auto].
      apply to_bytes_inj. rewrite E, !to_bytes_app, !to_of_bytes.
      by destruct Ho as [-> | ->].
    + intros (scheme & host & tld & -> & Hs & Hh & Hh' & Ht & Ht').
      exists (scheme +:+ "://"), (GoString.to_bytes host), (GoString.to_bytes tld).
      rewrite !length_to_bytes. rewrite !to_bytes_app.
      split; [by destruct Hs as [-> | ->]; auto|].
      split; [by rewrite <- !app_assoc|]. done.
  - intros scheme rest c -> Hs Hc Hsep.
    destruct (ValidateUrl _) eqn:Hv; [exfalso|done].
    apply ValidateUrl_bytes in Hv
      as (opening & host & tld & Ho & E & _ & Hh & _ & Ht).
    rewrite !to_bytes_app in E.
    assert (GoString.to_bytes rest = host ++ "."%char :: tld) as Hrest.
    { destruct Hs as [-> | ->], Ho as [-> | ->]; cbn in E;
        by simplify_eq. }
    rewrite Hrest in Hc.
    assert (host_char c = true) as Hhost.
    { apply elem_of_app in Hc as [Hc|Hc].
      - rewrite forallb_forall in Hh. by apply Hh, list_elem_of_In.
      - apply elem_of_cons in Hc as [->|Hc]; [done|].
        rewrite forallb_forall in Ht. by apply host_char_letter, Ht, list_elem_of_In. }
    apply host_char_not_separator in Hhost as (H1 & H2 & H3).
    by destruct Hsep as [?|[?|?]].
Qed.

Lemma C7_validate_url_witness :
  ValidateUrl "https://example.com" = true
  ∧ ValidateUrl "https://example.com/path" = false
  ∧ ValidateUrl "http://example.com:8080" = false
  ∧ ValidateUrl "http://example.com?q" = false.
Proof.
  split; [|split; [|split]].
  - apply (C7_validate_url "https://example.com").
    exists "https", "example", "com". repeat split; (done || cbn; lia || auto).
  - apply (proj2 (C7_validate_url "https://example.com/path")
             "https" "example.com/path" "/"%char);
      [done|auto|apply (bool_decide_unpack _); vm_compute; exact I|auto].
  - apply (proj2 (C7_validate_url "http://example.com:8080")
             "http" "example.com:8080" ":"%char);
      [done|auto|apply (bool_decide_unpack _); vm_compute; exact I|auto].
  - apply (proj2 (C7_validate_url "http://example.com?q")
             "http" "example.com?q" "?"%char);
      [done|auto|apply (bool_decide_unpack _); vm_compute; exact I|auto].
Defined.

(** * More of the code *)

(** ** Create: what it refuses, and what it does at once or not at all *)

(** X1. A URL that the validator rejects, the empty one included, is
    answered 400 and nothing happens: no command is sent, no random byte is
    drawn, nothing is logged, no goroutine is started. *)
Theorem X1_create_refuses_invalid_url (url : string) (w : World) :
  ValidateUrl url = false →
  ∃ msg, Create url w = (Error 400 msg, w)
         ∧ (msg = "missing url query parameter"
            ∨ msg = "invalid url, please add http:// or https://").
Proof.
  intros Hv. rewrite Create_spec, Hv. case_bool_decide; eauto.
Qed.

Lemma X1_create_refuses_invalid_url_witness :
  ∃ msg, Create "ftp://example.com" (boot tape_a)
         = (Error 400 msg, boot tape_a)
         ∧ (msg = "missing url query parameter"
            ∨ msg = "invalid url, please add http:// or https://").
Proof.
  apply (X1_create_refuses_invalid_url "ftp://example.com" (boot tape_a)).
  vm_compute. reflexivity.
Defined.

(** X2. Create is all or nothing. Either the URL is valid and the random
    source has 69 bytes: then the answer is the JSON with the slug and key
    made from those bytes, exactly one command was sent, the RPUSH of the
    three elements, and 69 bytes are used up. Or the answer is an error 400
    or 500, no command was sent and the store is as it was. *)
Theorem X2_create_all_or_nothing (url : string) (w : World) :
  (ValidateUrl url = true ∧ (69 ≤ length (entropy w))%nat
   ∧ (Create url w).1
     = JSON [("slug", next_slug (entropy w)); ("key", next_key (entropy w))]
   ∧ sent w (Create url w).2
     = [RPUSH (next_slug (entropy w)) [url; next_key (entropy w); "0"]]
   ∧ entropy (Create url w).2 = drop 69 (entropy w))
  ∨ ((ValidateUrl url = false ∨ (length (entropy w) < 69)%nat)
     ∧ (∃ code msg, (Create url w).1 = Error code msg
                    ∧ (code = 400 ∨ code = 500))
     ∧ store (Create url w).2 = store w
     ∧ sent w (Create url w).2 = []).
Proof.
  rewrite Create_spec. case_bool_decide as Hu.
  { right. subst url. cbn [fst snd]. rewrite sent_same. eauto 10. }
  destruct (ValidateUrl url) eqn:Hv; cbn [negb].
  2:{ right. cbn [fst snd]. rewrite sent_same. eauto 10. }
  case_decide as H5.
  2:{ right. cbn [fst snd]. rewrite sent_same.
      split; [right; lia|]. eauto 10. }
  cbn zeta. case_decide as H64; rewrite length_drop in H64.
  - left. cbn [fst snd entropy]. rewrite drop_drop.
    split; [done|]. split; [lia|]. split; [done|]. split; [|done].
    unfold sent. cbn [trace]. by rewrite drop_app_length.
  - right. cbn [fst snd store]. split; [right; lia|].
    split; [eauto 10|]. split; [done|].
    unfold sent. cbn [trace]. by rewrite drop_all.
Qed.

(** X3. The slug and key that Create hands out work: when the slug was new
    to the store, Stats with that key answers the counter "0", Delete with
    that key answers 200, and after the Delete the store is the one from
    before the Create. *)
Theorem X3_create_credentials_work (url : string) (w w' : World)
    (slug key : string) :
  Create url w = (JSON [("slug", slug); ("key", key)], w') →
  store w !! slug = None →
  (Stats slug key w').1 = SendString "0"
  ∧ (Delete slug key w').1 = SendStatus 200
  ∧ store (Delete slug key w').2 = store w.
Proof.
  intros H Hfresh. apply Create_inv in H as (E & Hu & _ & Hn & Hst & _).
  injection E as -> ->. rewrite Hfresh in Hst. cbn in Hst.
  pose proof (next_slug_not_reserved (entropy w) ltac:(lia)) as Hs.
  assert (next_key (entropy w) ≠ "") as Hk.
  { intros E. destruct (next_key_ok (entropy w) Hn) as [Hlen _].
    rewrite E in Hlen. discriminate. }
  assert (∀ i, field (store w') (next_slug (entropy w)) i
               = [url; next_key (entropy w); "0"] !! i) as Hf.
  { intros i. unfold field. by rewrite Hst, lookup_insert_eq. }
  rewrite Stats_spec, Delete_spec, !(bool_decide_eq_false_2 _ Hs),
    !(bool_decide_eq_false_2 _ Hk), !Hf.
  cbn [lookup list_lookup]. rewrite (bool_decide_eq_false_2 _ Hu).
  rewrite !bool_decide_eq_false_2 by auto.
  split; [done|]. split; [done|]. cbn [snd after_cmds store].
  rewrite Hst. by apply delete_insert_id.
Qed.

Lemma X3_create_credentials_work_witness :
  (Stats "!JJJJJ" key_J (Create "https://example.com" (boot tape_a)).2).1
  = SendString "0"
  ∧ (Delete "!JJJJJ" key_J (Create "https://example.com" (boot tape_a)).2).1
    = SendStatus 200
  ∧ store (Delete "!JJJJJ" key_J
             (Create "https://example.com" (boot tape_a)).2).2
    = store (boot tape_a).
Proof.
  apply (X3_create_credentials_work "https://example.com" (boot tape_a));
    vm_compute; reflexivity.
Defined.

(** X4. A collision is silent and the first writer wins. When the slug that
    Create draws already holds a record with another admin key, Create still
    answers with JSON, but its three elements land behind the record: a
    Resolve of the slug redirects to the old target, and the key just handed
    out is refused by Stats and by Delete. *)
Theorem X4_collision_first_writer_wins (url old_url old_key : string)
    (rest : list string) (w : World) :
  store w !! next_slug (entropy w) = Some (old_url :: old_key :: rest) →
  old_url ≠ "" → next_key (entropy w) ≠ old_key →
  ValidateUrl url = true → (69 ≤ length (entropy w))%nat →
  (Create url w).1
  = JSON [("slug", next_slug (entropy w)); ("key", next_key (entropy w))]
  ∧ store (Create url w).2 !! next_slug (entropy w)
    = Some (old_url :: old_key :: rest
            ++ [url; next_key (entropy w); "0"])
  ∧ (Resolve (next_slug (entropy w)) (Create url w).2).1 = Redirect old_url
  ∧ (Stats (next_slug (entropy w)) (next_key (entropy w)) (Create url w).2).1
    = Error 401 "Unauthorized"
  ∧ (Delete (next_slug (entropy w)) (next_key (entropy w)) (Create url w).2).1
    = Error 401 "Unauthorized".
Proof.
  intros Hl Hold Hkey Hv Hn.
  destruct (Create_succeeds url w Hv Hn) as [w' H]. rewrite H. cbn [fst snd].
  apply Create_inv in H as (_ & _ & _ & _ & Hst & _).
  rewrite Hl in Hst. cbn [default] in Hst.
  pose proof (next_slug_not_reserved (entropy w) ltac:(lia)) as Hs.
  assert (next_key (entropy w) ≠ "") as Hk.
  { intros E. destruct (next_key_ok (entropy w) Hn) as [Hlen _].
    rewrite E in Hlen. discriminate. }
  assert (store w' !! next_slug (entropy w)
          = Some (old_url :: old_key :: rest
                  ++ [url; next_key (entropy w); "0"])) as Hl'.
  { by rewrite Hst, lookup_insert_eq. }
  split; [done|]. split; [done|].
  rewrite Resolve_spec, Stats_spec, Delete_spec,
    !(bool_decide_eq_false_2 _ Hs), !(bool_decide_eq_false_2 _ Hk).
  unfold field. rewrite Hl'. cbn [mbind option_bind lookup list_lookup].
  rewrite !(bool_decide_eq_false_2 _ Hold).
  by rewrite !bool_decide_eq_true_2 by auto.
Qed.

Lemma X4_collision_first_writer_wins_witness :
  (Create "https://example.com"
     (world_with ["http://old.example"; "first"; "7"] tape_a)).1
  = JSON [("slug", "!JJJJJ"); ("key", key_J)]
  ∧ store (Create "https://example.com"
             (world_with ["http://old.example"; "first"; "7"] tape_a)).2
      !! "!JJJJJ"
    = Some ["http://old.example"; "first"; "7";
            "https://example.com"; key_J; "0"]
  ∧ (Resolve "!JJJJJ"
       (Create "https://example.com"
          (world_with ["http://old.example"; "first"; "7"] tape_a)).2).1
    = Redirect "http://old.example"
  ∧ (Stats "!JJJJJ" key_J
       (Create "https://example.com"
          (world_with ["http://old.example"; "first"; "7"] tape_a)).2).1
    = Error 401 "Unauthorized"
  ∧ (Delete "!JJJJJ" key_J
       (Create "https://example.com"
          (world_with ["http://old.example"; "first"; "7"] tape_a)).2).1
    = Error 401 "Unauthorized".
Proof.
  apply (X4_collision_first_writer_wins "https://example.com"
           "http://old.example" "first" ["7"]
           (world_with ["http://old.example"; "first"; "7"] tape_a));
    vm_compute; (reflexivity || discriminate || lia).
Defined.

(** ** Counting resolves *)

(** X5. The counter counts. On a record whose counter is the numeral of [c],
    [n] Resolves in a row, each followed by its goroutine, leave the numeral
    of [c + n] at position 2 and the rest of the record as it was, and Stats
    with the admin key then answers that numeral; this holds as long as
    [c + n] does not exceed the largest [int]. *)
Theorem X5_counter_counts_resolves (n : nat) (slug url key : string) (c : Z)
    (l : list string) (w : World) :
  store w !! slug = Some l →
  l !! 0%nat = Some url → l !! 1%nat = Some key →
  l !! 2%nat = Some (GoInt.Sprint c) →
  url ≠ "" → key ≠ "" → ¬ (slug = "" ∨ slug = "!") →
  0 ≤ c → c + Z.of_nat n ≤ GoInt.max_int →
  store (resolves n slug w) !! slug
  = Some (<[2%nat := GoInt.Sprint (c + Z.of_nat n)]> l)
  ∧ (Stats slug key (resolves n slug w)).1
    = SendString (GoInt.Sprint (c + Z.of_nat n)).
Proof.
  revert c l w. induction n as [|n IH]; intros c l w Hl H0 H1 H2 Hu Hk Hs Hc Hn.
  - cbn [resolves]. rewrite Z.add_0_r, list_insert_id by done.
    split; [done|]. rewrite Stats_spec, (bool_decide_eq_false_2 _ Hs),
      (bool_decide_eq_false_2 _ Hk).
    unfold field. rewrite Hl. cbn. rewrite H1, H2. cbn.
    by rewrite bool_decide_eq_false_2 by auto.
  - cbn [resolves].
    destruct (Resolve_sync_counter slug url _ l w Hl H0 H2 Hu Hs) as [_ Hst].
    rewrite Atoi_Sprint in Hst by (unfold GoInt.max_int in *; lia).
    cbn [fst] in Hst.
    rewrite wrap_small in Hst
      by (unfold GoInt.max_int, GoInt.min_int in *; lia).
    pose proof (lookup_lt_Some _ _ _ H2) as Hlen.
    destruct (IH (c + 1) (<[2%nat := GoInt.Sprint (c + 1)]> l)
                (Resolve_sync slug w).2) as [Hl' Hstats]; try done.
    + by rewrite Hst, lookup_insert_eq.
    + by rewrite list_lookup_insert_ne.
    + by rewrite list_lookup_insert_ne.
    + by rewrite list_lookup_insert_eq.
    + lia.
    + lia.
    + replace (c + Z.of_nat (S n)) with (c + 1 + Z.of_nat n) by lia.
      split; [|done]. by rewrite Hl', list_insert_insert_eq.
Qed.

Lemma X5_counter_counts_resolves_witness :
  store (resolves 3 "!JJJJJ" world_one) !! "!JJJJJ"
  = Some (<[2%nat := GoInt.Sprint (0 + Z.of_nat 3)]>
            ["https://example.com"; key_J; "0"])
  ∧ (Stats "!JJJJJ" key_J (resolves 3 "!JJJJJ" world_one)).1
    = SendString (GoInt.Sprint (0 + Z.of_nat 3)).
Proof.
  apply (X5_counter_counts_resolves 3 "!JJJJJ" "https://example.com" key_J 0
           ["https://example.com"; key_J; "0"] world_one);
    first [ by intros [H|H]; discriminate H
          | vm_compute; (reflexivity || discriminate) ].
Defined.

(** ** Every record of a running program serves *)

Lemma run_goroutine_counter (w : World) :
  store (run_goroutine w).2 = store w
  ∨ ∃ slug l c, store w !! slug = Some l ∧ (2 < length l)%nat
        ∧ store (run_goroutine w).2
          = <[slug := <[2%nat := GoInt.Sprint c]> l]> (store w).
Proof.
  unfold run_goroutine. destruct (spawned w) as [|slug rest]; [by left|].
  rewrite increment_spec. cbn [store].
  destruct (store w !! slug) as [l|] eqn:Hl; [|by left].
  destruct (l !! 2%nat) eqn:Hv; [|by left].
  right. apply lookup_lt_Some in Hv. by eexists slug, l, _.
Qed.

Lemma has_counter_app (l l' : list string) :
  has_counter l → has_counter (l ++ l').
Proof. intros [c Hc]. exists c. by apply lookup_app_l_Some. Qed.

Lemma step_keeps_counters (e : Event) (w : World) :
  (∀ slug l, store w !! slug = Some l → has_counter l) →
  ∀ slug l, store (step e w).2 !! slug = Some l → has_counter l.
Proof.
  intros Hok. destruct e as [[url|slug|slug key|slug key]|]; cbn [step handle];
    unfold mbind, M_bind, mret, M_ret.
  - destruct (Create url w) as [resp w'] eqn:H. cbn [snd].
    destruct (Create_cases _ _ _ _ H) as [[_ ->]|[fields ->]]; [done|].
    apply Create_inv in H as (_ & _ & _ & _ & -> & _).
    intros slug l. destruct (decide (slug = next_slug (entropy w))) as [->|Hne].
    + rewrite lookup_insert_eq. intros [= <-].
      destruct (store w !! next_slug (entropy w)) as [l0|] eqn:Hl0; cbn.
      * by apply has_counter_app, (Hok _ _ Hl0).
      * by exists 0.
    + rewrite lookup_insert_ne by done. apply Hok.
  - pose proof (Resolve_store slug w) as H.
    destruct (Resolve slug w). cbn [snd] in *. by rewrite H.
  - pose proof (Stats_store slug key w) as H.
    destruct (Stats slug key w). cbn [snd] in *. by rewrite H.
  - pose proof (Delete_store slug key w) as H.
    destruct (Delete slug key w). cbn [snd] in *.
    destruct H as [->|[_ ->]]; [done|].
    intros k l Hl. apply lookup_delete_Some in Hl as [_ Hl]. by eapply Hok.
  - pose proof (run_goroutine_counter w) as H.
    destruct (run_goroutine w). cbn [snd] in *.
    destruct H as [->|(slug & l & c & Hl & Hlen & ->)]; [done|].
    intros k l'. destruct (decide (k = slug)) as [->|Hne].
    + rewrite lookup_insert_eq. intros [= <-]. exists c.
      by apply list_lookup_insert_eq.
    + rewrite lookup_insert_ne by done. apply Hok.
Qed.

Lemma steps_keep_counters (es : list Event) (w : World) :
  (∀ slug l, store w !! slug = Some l → has_counter l) →
  ∀ slug l, store (steps es w).2 !! slug = Some l → has_counter l.
Proof.
  revert w. induction es as [|e es IH]; intros w Hok; [done|].
  rewrite steps_cons. cbn [snd]. apply IH. by apply step_keeps_counters.
Qed.

(** X6. Start the program and let any requests come in and any goroutines
    run, in any order. Every list then found in the store is a full record:
    a valid URL, a 64-byte admin key and a decimal numeral at positions 0, 1
    and 2, under a slug of the slug format. So Resolve of the slug redirects
    to that URL, and Stats with that key answers that numeral. *)
Theorem X6_reachable_records_serve (tape : list ascii) (es : list Event)
    (slug : string) (l : list string) :
  store (steps es (boot tape)).2 !! slug = Some l →
  ∃ url key c rest,
    l = url :: key :: GoInt.Sprint c :: rest
    ∧ slug_ok slug = true ∧ ValidateUrl url = true ∧ key_ok key = true
    ∧ (Resolve slug (steps es (boot tape)).2).1 = Redirect url
    ∧ (Stats slug key (steps es (boot tape)).2).1
      = SendString (GoInt.Sprint c).
Proof.
  intros Hl.
  destruct (steps_invariant es (boot tape)) as [Hok _]; [done|].
  specialize (Hok _ _ Hl).
  destruct (steps_keep_counters es (boot tape)) with (slug := slug) (l := l)
    as [c Hc]; [done|done|].
  destruct l as [|url [|key [|counter rest]]]; try done.
  cbn in Hc. injection Hc as ->.
  pose proof (record_ok_inv _ _ _ _ Hok) as (Hs & Hu & Hk & Hv).
  cbn [record_ok] in Hok. rewrite !andb_true_iff in Hok.
  destruct Hok as [[Hso _] Hko].
  exists url, key, c, rest. repeat (split; [done|]).
  rewrite Resolve_spec, Stats_spec, !(bool_decide_eq_false_2 _ Hs),
    (bool_decide_eq_false_2 _ Hk).
  unfold field. rewrite Hl. cbn [mbind option_bind lookup list_lookup].
  rewrite (bool_decide_eq_false_2 _ Hu).
  by rewrite bool_decide_eq_false_2 by auto.
Qed.

Lemma X6_reachable_records_serve_witness :
  ∃ url key c rest,
    ["https://example.com"; key_J; "1"] = url :: key :: GoInt.Sprint c :: rest
    ∧ slug_ok "!JJJJJ" = true ∧ ValidateUrl url = true ∧ key_ok key = true
    ∧ (Resolve "!JJJJJ"
         (steps [Incoming (ReqCreate "https://example.com");
                 Incoming (ReqResolve "!JJJJJ"); Scheduled]
            (boot tape_a)).2).1 = Redirect url
    ∧ (Stats "!JJJJJ" key
         (steps [Incoming (ReqCreate "https://example.com");
                 Incoming (ReqResolve "!JJJJJ"); Scheduled]
            (boot tape_a)).2).1 = SendString (GoInt.Sprint c).
Proof.
  apply (X6_reachable_records_serve tape_a
           [Incoming (ReqCreate "https://example.com");
            Incoming (ReqResolve "!JJJJJ"); Scheduled] "!JJJJJ").
  vm_compute. reflexivity.
Defined.

(** ** What a request leaves alone *)

(** X7. A handler touches one slug only. From the start of a request to its
    answer, Resolve and Stats leave every list of the store as it was,
    Delete leaves the list of every slug other than its own as it was, and
    Create leaves alone every slug other than the one it hands out. (The
    goroutine that a Resolve starts runs after the answer and is no part of
    this.) *)
Theorem X7_requests_are_local (slug other key url : string) (w : World) :
  other ≠ slug → other ≠ next_slug (entropy w) →
  store (Resolve slug w).2 = store w
  ∧ store (Stats slug key w).2 = store w
  ∧ store (Delete slug key w).2 !! other = store w !! other
  ∧ store (Create url w).2 !! other = store w !! other.
Proof.
  intros Hne Hne'. split; [apply Resolve_store|].
  split; [apply Stats_store|]. split.
  - destruct (Delete_store slug key w) as [->|[_ ->]]; [done|].
    by rewrite lookup_delete_ne.
  - destruct (Create url w) as [resp w'] eqn:H. cbn [snd].
    destruct (Create_cases _ _ _ _ H) as [[_ ->]|[fields ->]]; [done|].
    apply Create_inv in H as (_ & _ & _ & _ & -> & _).
    by rewrite lookup_insert_ne.
Qed.

Lemma X7_requests_are_local_witness :
  store (Resolve "!zzzzz" world_other).2 = store world_other
  ∧ store (Stats "!zzzzz" "k" world_other).2 = store world_other
  ∧ store (Delete "!zzzzz" "k" world_other).2 !! "!JJJJJ"
    = store world_other !! "!JJJJJ"
  ∧ store (Create "https://example.com" world_other).2 !! "!JJJJJ"
    = store world_other !! "!JJJJJ".
Proof.
  apply (X7_requests_are_local "!zzzzz" "!JJJJJ" "k" "https://example.com"
           world_other);
    [discriminate|vm_compute; discriminate].
Defined.

(** ** Guards, absent slugs and deleted records *)

(** X8. The empty slug and the bare sentinel are refused before anything
    else: Resolve, Stats and Delete answer 400 (missing slug) whatever the
    key, and the world is left exactly as it was: no command is sent and no
    goroutine is started. *)
Theorem X8_reserved_slugs_refused (slug key : string) (w : World) :
  slug = "" ∨ slug = "!" →
  Resolve slug w = (Error 400 "missing slug", w)
  ∧ Resolve_sync slug w = (Error 400 "missing slug", w)
  ∧ Stats slug key w = (Error 400 "missing slug", w)
  ∧ Delete slug key w = (Error 400 "missing slug", w).
Proof.
  intros Hs.
  rewrite Resolve_spec, Resolve_sync_spec, Stats_spec, Delete_spec.
  by rewrite !(bool_decide_eq_true_2 _ Hs).
Qed.

Lemma X8_reserved_slugs_refused_witness :
  Resolve "!" world_one = (Error 400 "missing slug", world_one)
  ∧ Resolve_sync "!" world_one = (Error 400 "missing slug", world_one)
  ∧ Stats "!" key_J world_one = (Error 400 "missing slug", world_one)
  ∧ Delete "!" key_J world_one = (Error 400 "missing slug", world_one).
Proof. apply (X8_reserved_slugs_refused "!" key_J world_one). by right. Defined.

(** X9. A slug that holds no record is answered 400 by every handler, with a
    non-empty key of any value: Resolve and Delete fail to retrieve the
    redirect, Stats fails to check the admin key. None of them answers
    Unauthorized, none changes the store, and no goroutine is started. *)
Theorem X9_absent_slug (slug key : string) (w : World) :
  store w !! slug = None → ¬ (slug = "" ∨ slug = "!") → key ≠ "" →
  (Resolve_sync slug w).1 = Error 400 "failed to retrieve redirect"
  ∧ (Stats slug key w).1 = Error 400 "failed to check admin key"
  ∧ (Delete slug key w).1 = Error 400 "failed to retrieve redirect"
  ∧ store (Resolve_sync slug w).2 = store w
  ∧ store (Stats slug key w).2 = store w
  ∧ store (Delete slug key w).2 = store w
  ∧ spawned (Resolve_sync slug w).2 = spawned w.
Proof.
  intros Hl Hs Hk.
  rewrite Resolve_sync_spec, Stats_spec, Delete_spec,
    !(bool_decide_eq_false_2 _ Hs), !(bool_decide_eq_false_2 _ Hk).
  unfold field. rewrite Hl. cbn. done.
Qed.

Lemma X9_absent_slug_witness :
  (Resolve_sync "!zzzzz" world_one).1 = Error 400 "failed to retrieve redirect"
  ∧ (Stats "!zzzzz" key_J world_one).1 = Error 400 "failed to check admin key"
  ∧ (Delete "!zzzzz" key_J world_one).1
    = Error 400 "failed to retrieve redirect"
  ∧ store (Resolve_sync "!zzzzz" world_one).2 = store world_one
  ∧ store (Stats "!zzzzz" key_J world_one).2 = store world_one
  ∧ store (Delete "!zzzzz" key_J world_one).2 = store world_one
  ∧ spawned (Resolve_sync "!zzzzz" world_one).2 = spawned world_one.
Proof.
  apply (X9_absent_slug "!zzzzz" key_J world_one).
  - vm_compute; reflexivity.
  - intros [H|H]; discriminate H.
  - discriminate.
Defined.

(** X10. Delete works once. After a Delete with the stored admin key, a
    second Delete with the same key answers 400 (failed to retrieve
    redirect) and changes nothing, and Stats with that key answers 400
    (failed to check admin key): a deleted slug is like one never created,
    and its key is worth nothing. *)
Theorem X10_delete_works_once (slug url stored : string) (rest : list string)
    (w : World) :
  store w !! slug = Some (url :: stored :: rest) →
  record_ok slug (url :: stored :: rest) = true →
  (Delete slug stored w).1 = SendStatus 200
  ∧ (Delete slug stored (Delete slug stored w).2).1
    = Error 400 "failed to retrieve redirect"
  ∧ store (Delete slug stored (Delete slug stored w).2).2
    = delete slug (store w)
  ∧ (Stats slug stored (Delete slug stored w).2).1
    = Error 400 "failed to check admin key".
Proof.
  intros Hl Hok. pose proof (record_ok_inv _ _ _ _ Hok) as (Hs & Hu & Hk & _).
  assert (Delete slug stored w
          = (SendStatus 200,
             after_cmds [LINDEX slug 0; LINDEX slug 1; DEL slug]
               (delete slug (store w)) w)) as ->.
  { rewrite Delete_spec, (bool_decide_eq_false_2 _ Hs),
      (bool_decide_eq_false_2 _ Hk).
    unfold field. rewrite Hl. cbn [mbind option_bind lookup list_lookup].
    rewrite (bool_decide_eq_false_2 _ Hu).
    by rewrite bool_decide_eq_false_2 by auto. }
  cbn [fst snd]. split; [done|].
  rewrite Delete_spec, Stats_spec, !(bool_decide_eq_false_2 _ Hs),
    !(bool_decide_eq_false_2 _ Hk).
  unfold field. cbn [after_cmds store]. rewrite lookup_delete_eq. cbn. done.
Qed.

Lemma X10_delete_works_once_witness :
  (Delete "!JJJJJ" key_J world_one).1 = SendStatus 200
  ∧ (Delete "!JJJJJ" key_J (Delete "!JJJJJ" key_J world_one).2).1
    = Error 400 "failed to retrieve redirect"
  ∧ store (Delete "!JJJJJ" key_J (Delete "!JJJJJ" key_J world_one).2).2
    = delete "!JJJJJ" (store world_one)
  ∧ (Stats "!JJJJJ" key_J (Delete "!JJJJJ" key_J world_one).2).1
    = Error 400 "failed to check admin key".
Proof.
  apply (X10_delete_works_once "!JJJJJ" "https://example.com" key_J ["0"]
           world_one); vm_compute; reflexivity.
Defined.

(** X11. A goroutine that runs late does not bring a record back. When a
    Resolve has answered with the redirect, a Delete with the admin key
    removes the record before the goroutine runs, and the goroutine runs
    after that, it reads position 2, gets nothing, logs one line and writes
    nothing: the record stays deleted. *)
Theorem X11_late_goroutine_writes_nothing (slug url stored : string)
    (rest : list string) (w : World) :
  store w !! slug = Some (url :: stored :: rest) →
  record_ok slug (url :: stored :: rest) = true →
  spawned w = [] →
  (steps [Incoming (ReqResolve slug); Incoming (ReqDelete slug stored);
          Scheduled] w).1
  = [Some (Redirect url); Some (SendStatus 200); None]
  ∧ store (steps [Incoming (ReqResolve slug); Incoming (ReqDelete slug stored);
                  Scheduled] w).2 = delete slug (store w)
  ∧ sent w (steps [Incoming (ReqResolve slug);
                   Incoming (ReqDelete slug stored); Scheduled] w).2
    = [LINDEX slug 0; LINDEX slug 0; LINDEX slug 1; DEL slug; LINDEX slug 2]
  ∧ logged (steps [Incoming (ReqResolve slug);
                   Incoming (ReqDelete slug stored); Scheduled] w).2
    = logged w ++ ["Failed to get clicks counter for" +:+ slug].
Proof.
  intros Hl Hok Hsp.
  pose proof (record_ok_inv _ _ _ _ Hok) as (Hs & Hu & Hk & _).
  assert (Resolve slug w
          = (Redirect url,
             mkWorld (store w) (entropy w) (trace w ++ [LINDEX slug 0])
               (logged w) [slug])) as HR.
  { rewrite Resolve_spec, (bool_decide_eq_false_2 _ Hs). unfold field.
    rewrite Hl. cbn [mbind option_bind lookup list_lookup].
    by rewrite (bool_decide_eq_false_2 _ Hu), Hsp. }
  assert (∀ w1, store w1 = store w →
            Delete slug stored w1
            = (SendStatus 200,
               after_cmds [LINDEX slug 0; LINDEX slug 1; DEL slug]
                 (delete slug (store w)) w1)) as HD.
  { intros w1 E. rewrite Delete_spec, (bool_decide_eq_false_2 _ Hs),
      (bool_decide_eq_false_2 _ Hk).
    unfold field. rewrite E, Hl. cbn [mbind option_bind lookup list_lookup].
    rewrite (bool_decide_eq_false_2 _ Hu).
    by rewrite bool_decide_eq_false_2 by auto. }
  rewrite !steps_cons. cbn [steps step handle].
  unfold mbind, M_bind, mret, M_ret. rewrite HR. cbn [fst snd].
  rewrite HD by done. cbn [fst snd].
  unfold run_goroutine, after_cmds. cbn [spawned store entropy trace logged].
  rewrite increment_spec. cbn [store]. rewrite lookup_delete_eq.
  cbn [fst snd store logged trace]. repeat split.
  unfold sent. cbn [trace]. rewrite <- !app_assoc. by rewrite drop_app_length.
Qed.

Lemma X11_late_goroutine_writes_nothing_witness :
  (steps [Incoming (ReqResolve "!JJJJJ"); Incoming (ReqDelete "!JJJJJ" key_J);
          Scheduled] world_one).1
  = [Some (Redirect "https://example.com"); Some (SendStatus 200); None]
  ∧ store (steps [Incoming (ReqResolve "!JJJJJ");
                  Incoming (ReqDelete "!JJJJJ" key_J); Scheduled] world_one).2
    = delete "!JJJJJ" (store world_one)
  ∧ sent world_one
      (steps [Incoming (ReqResolve "!JJJJJ");
              Incoming (ReqDelete "!JJJJJ" key_J); Scheduled] world_one).2
    = [LINDEX "!JJJJJ" 0; LINDEX "!JJJJJ" 0; LINDEX "!JJJJJ" 1; DEL "!JJJJJ";
       LINDEX "!JJJJJ" 2]
  ∧ logged (steps [Incoming (ReqResolve "!JJJJJ");
                   Incoming (ReqDelete "!JJJJJ" key_J); Scheduled] world_one).2
    = logged world_one ++ ["Failed to get clicks counter for" +:+ "!JJJJJ"].
Proof.
  apply (X11_late_goroutine_writes_nothing "!JJJJJ" "https://example.com"
           key_J ["0"] world_one); vm_compute; reflexivity.
Defined.

(** ** A counter that is no number *)

Lemma Atoi_syntax_error (val : string) :
  (GoInt.Atoi val).2 = Some "invalid syntax" → (GoInt.Atoi val).1 = 0.
Proof.
  unfold GoInt.Atoi. cbn zeta.
  destruct ((0 <? GoString.len val)%nat && (GoString.len val <? 19)%nat).
  - destruct val as [|ch rest]; [done|].
    destruct (bool_decide (ch = "-"%char ∨ ch = "+"%char)
              && (GoString.len
                    (if bool_decide (ch = "-"%char ∨ ch = "+"%char)
                     then rest else String ch rest) <? 1)%nat); [done|].
    by destruct (GoInt.digits 0 _).
  - unfold GoInt.ParseInt. cbn zeta. destruct val as [|ch rest]; [done|].
    destruct (GoInt.ParseUint _) as [n| |]; [|done|].
    + destruct (negb (bool_decide (ch = "-"%char)) && (2 ^ 63 <=? n));
        [done|].
      by destruct (bool_decide (ch = "-"%char) && (2 ^ 63 <? n)).
    + destruct (negb (bool_decide (ch = "-"%char))
                && (2 ^ 63 <=? GoInt.max_uint)); [done|].
      by destruct (bool_decide (ch = "-"%char) && (2 ^ 63 <? GoInt.max_uint)).
Qed.

(** X12. The goroutine drops the error of Atoi. When Atoi answers the
    counter of a record with its syntax error (the empty string, a bare
    sign, or a text with a byte that is no digit before any overflow), a
    Resolve redirects as usual and its goroutine sets the counter to "1",
    whatever was there. *)
Theorem X12_invalid_counter_becomes_one (slug url val : string)
    (l : list string) (w : World) :
  store w !! slug = Some l →
  l !! 0%nat = Some url → l !! 2%nat = Some val →
  url ≠ "" → ¬ (slug = "" ∨ slug = "!") →
  (GoInt.Atoi val).2 = Some "invalid syntax" →
  (Resolve_sync slug w).1 = Redirect url
  ∧ store (Resolve_sync slug w).2 = <[slug := <[2%nat := "1"]> l]> (store w).
Proof.
  intros Hl H0 H2 Hu Hs Herr.
  destruct (Resolve_sync_counter slug url val l w Hl H0 H2 Hu Hs) as [Hr Hst].
  by rewrite (Atoi_syntax_error _ Herr) in Hst.
Qed.

Lemma X12_invalid_counter_becomes_one_witness :
  (Resolve_sync "!JJJJJ"
     (world_with ["https://example.com"; key_J; "many"] [])).1
  = Redirect "https://example.com"
  ∧ store (Resolve_sync "!JJJJJ"
             (world_with ["https://example.com"; key_J; "many"] [])).2
    = <["!JJJJJ" := <[2%nat := "1"]> ["https://example.com"; key_J; "many"]]>
        (store (world_with ["https://example.com"; key_J; "many"] [])).
Proof.
  apply (X12_invalid_counter_becomes_one "!JJJJJ" "https://example.com" "many"
           ["https://example.com"; key_J; "many"]
           (world_with ["https://example.com"; key_J; "many"] []));
    first [ by intros [H|H]; discriminate H
          | vm_compute; (reflexivity || discriminate) ].
Defined.

(** ** The bias of the generator *)

Lemma all_bytes_complete (b : ascii) : b ∈ all_bytes.
Proof.
  apply (bool_decide_unpack _).
  destruct b as [[] [] [] [] [] [] [] []]; vm_compute; exact I.
Qed.

(** X13. RandStr is biased. Of the 256 values of a random byte, 5 are turned
    into each of the first 8 bytes of the alphabet (a to h) and 4 into each
    of the other 54: the first 8 are drawn with probability 5/256, the
    others with 4/256. *)
Theorem X13_modulo_bias (i : nat) :
  (i < GoString.len chars)%nat →
  length (preimages i) = (if (i <? 8)%nat then 5 else 4)%nat
  ∧ (∀ b, b ∈ preimages i ↔ chars_at (byte_mod_len b) = chars_at i)
  ∧ (∀ b, b ∈ preimages i → Some (pick b) = chars_at i).
Proof.
  intros Hi. rewrite len_chars in Hi.
  assert (∀ b, b ∈ preimages i ↔ byte_mod_len b = i) as Hmem.
  { intros b. unfold preimages. rewrite list_elem_of_filter.
    pose proof (all_bytes_complete b). tauto. }
  assert (∀ j k, (j < 62)%nat → (k < 62)%nat →
            chars_at j = chars_at k → j = k) as Hinj.
  { intros j k Hj Hk. unfold chars_at.
    pose proof (proj1 (NoDup_alt (GoString.to_bytes chars))) as Hnd.
    assert (NoDup (GoString.to_bytes chars)) as Hn
      by (apply (bool_decide_unpack _); vm_compute; exact I).
    assert (∀ n, String.get n chars = GoString.to_bytes chars !! n) as Hget.
    { intros n. revert n. generalize chars. intros s.
      induction s as [|c s IH]; intros [|n]; cbn; auto. }
    rewrite !Hget. intros E.
    destruct (GoString.to_bytes chars !! j) as [c|] eqn:Ej.
    - by apply (Hnd Hn j k c).
    - apply lookup_ge_None in Ej. rewrite length_to_bytes, len_chars in Ej. lia. }
  assert (∀ b, (byte_mod_len b < 62)%nat) as Hlt.
  { intros b. unfold byte_mod_len. rewrite len_chars.
    apply Nat.mod_upper_bound. lia. }
  split; [|split].
  - clear Hmem Hinj Hlt.
    do 62 (destruct i as [|i]; [vm_compute; reflexivity|]). lia.
  - intros b. rewrite Hmem. split; [intros E; by rewrite E|]. intros E.
    by apply Hinj.
  - intros b Hb%Hmem. destruct (chars_at_mod b) as (c & Hc & Hp & _).
    by rewrite Hp, <- Hb, Hc.
Qed.

Lemma X13_modulo_bias_witness :
  length (preimages 0) = (if (0 <? 8)%nat then 5 else 4)%nat
  ∧ (∀ b, b ∈ preimages 0 ↔ chars_at (byte_mod_len b) = chars_at 0)
  ∧ (∀ b, b ∈ preimages 0 → Some (pick b) = chars_at 0).
Proof. apply (X13_modulo_bias 0). rewrite len_chars. lia. Defined.

(** ** What an accepted URL looks like *)

Lemma last_two {A} (l : list A) :
  (2 ≤ length l)%nat → ∃ pre a b, l = pre ++ [a; b].
Proof.
  intros Hlen. exists (take (length l - 2) l).
  pose proof (take_drop (length l - 2) l) as E.
  pose proof (length_drop l (length l - 2)) as Hd.
  destruct (drop (length l - 2) l) as [|a [|b [|c t]]] eqn:Ed;
    cbn in Hd; try lia.
  exists a, b. by rewrite E.
Qed.

(** X14. Every text that ValidateUrl accepts has at least 11 bytes, ends in
    two letters, and is made of ASCII letters, digits, dots, hyphens, colons
    and slashes only. So a text with a blank, a line break, a control byte
    or a byte above 127 is rejected, and so is one whose host ends in a
    digit, such as a dotted IPv4 address. *)
Theorem X14_accepted_url_shape (s : string) :
  ValidateUrl s = true →
  (11 ≤ GoString.len s)%nat
  ∧ (∃ pre a b, GoString.to_bytes s = pre ++ [a; b]
                ∧ GoString.is_letter a = true ∧ GoString.is_letter b = true)
  ∧ Forall (λ c, host_char c = true ∨ c = ":"%char ∨ c = "/"%char)
      (GoString.to_bytes s).
Proof.
  intros (opening & host & tld & Ho & E & Hh & Hh' & Ht & Ht')%ValidateUrl_bytes.
  rewrite forallb_forall in Hh', Ht'.
  split; [|split].
  - assert (7 ≤ length (GoString.to_bytes opening))%nat as H7.
    { destruct Ho as [-> | ->]; vm_compute; lia. }
    rewrite <- length_to_bytes, E, !length_app. cbn [length]. lia.
  - destruct (last_two tld Ht) as (pre & a & b & ->).
    exists (GoString.to_bytes opening ++ host ++ "."%char :: pre), a, b.
    split; [by rewrite E, <- !app_assoc|].
    split; apply Ht', list_elem_of_In, elem_of_app; right;
      [left|right; left].
  - rewrite E. apply Forall_app. split.
    { destruct Ho as [-> | ->]; unfold GoString.to_bytes;
        cbn [list_ascii_of_string];
        repeat (apply Forall_cons; split; [vm_compute; auto|]);
        apply Forall_nil_2. }
    apply Forall_app. split.
    { apply Forall_forall. intros c Hc. left. by apply Hh', list_elem_of_In. }
    constructor; [by left|].
    apply Forall_forall. intros c Hc. left.
    by apply host_char_letter, Ht', list_elem_of_In.
Qed.

Lemma X14_accepted_url_shape_witness :
  (11 ≤ GoString.len "http://a.bc")%nat
  ∧ (∃ pre a b, GoString.to_bytes "http://a.bc" = pre ++ [a; b]
                ∧ GoString.is_letter a = true ∧ GoString.is_letter b = true)
  ∧ Forall (λ c, host_char c = true ∨ c = ":"%char ∨ c = "/"%char)
      (GoString.to_bytes "http://a.bc").
Proof. apply (X14_accepted_url_shape "http://a.bc"). vm_compute. reflexivity. Defined.

(** ** Release 1.0.0-alpha.1 *)

(** X15. Resolve answers in release 1.1.0 exactly as it did in release
    1.0.0-alpha.1, for every slug and store, and sends the same command; the
    old handler changes neither the store nor the goroutines, the new one
    differs only in the goroutine it starts. *)
Theorem X15_resolve_same_answer_as_alpha (slug : string) (w : World) :
  (Resolve slug w).1 = (Resolve_alpha slug w).1
  ∧ trace (Resolve slug w).2 = trace (Resolve_alpha slug w).2
  ∧ store (Resolve slug w).2 = store (Resolve_alpha slug w).2
  ∧ store (Resolve_alpha slug w).2 = store w
  ∧ spawned (Resolve_alpha slug w).2 = spawned w.
Proof.
  rewrite Resolve_spec. unfold Resolve_alpha. run_monad.
  case_bool_decide; [done|].
  rewrite Do_LINDEX by done. change (Z.to_nat 0) with 0%nat.
  destruct (field (store w) slug 0) as [val|]; cbn [from_option ToString].
  - rewrite failed_or_empty_nil. by case_bool_decide.
  - by rewrite failed_or_empty_err.
Qed.

(** X16. Delete in release 1.0.0-alpha.1: with any key other than the stored
    admin key, the empty key too, it answers Unauthorized and leaves the
    store alone; with the stored key it removes the record and answers with
    the text "deleted redirect for " followed by the target URL. *)
Theorem X16_delete_alpha (slug url stored wrong : string)
    (rest : list string) (w : World) :
  store w !! slug = Some (url :: stored :: rest) →
  record_ok slug (url :: stored :: rest) = true →
  wrong ≠ stored →
  (Delete_alpha slug wrong w).1 = Error 401 "Unauthorized"
  ∧ store (Delete_alpha slug wrong w).2 = store w
  ∧ (Delete_alpha slug stored w).1
    = SendString ("deleted redirect for " +:+ url)
  ∧ store (Delete_alpha slug stored w).2 = delete slug (store w).
Proof.
  intros Hl Hok Hne.
  destruct (Delete_alpha_wrong_key _ _ _ _ _ _ Hl Hok Hne) as [H1 H2].
  split; [done|]. split; [done|].
  apply record_ok_inv in Hok as (Hs & Hu & Hk & _).
  assert (field (store w) slug 0 = Some url) as F0
    by (unfold field; by rewrite Hl).
  assert (field (store w) slug 1 = Some stored) as F1
    by (unfold field; by rewrite Hl).
  unfold Delete_alpha. run_monad. rewrite bool_decide_eq_false_2 by done.
  rewrite Do_LINDEX by done. change (Z.to_nat 0) with 0%nat.
  rewrite F0. cbn [from_option ToString].
  rewrite failed_or_empty_nil, bool_decide_eq_false_2 by done.
  rewrite Do_LINDEX by done. change (Z.to_nat 1) with 1%nat.
  cbn [after_cmds store]. rewrite F1. cbn [from_option ToString].
  rewrite bool_decide_eq_false_2 by auto.
  rewrite Do_DEL. cbn [ReplyError].
  by rewrite failed_or_empty_nil, bool_decide_eq_false_2.
Qed.

Lemma X16_delete_alpha_witness :
  (Delete_alpha "!JJJJJ" "" world_one).1 = Error 401 "Unauthorized"
  ∧ store (Delete_alpha "!JJJJJ" "" world_one).2 = store world_one
  ∧ (Delete_alpha "!JJJJJ" key_J world_one).1
    = SendString ("deleted redirect for " +:+ "https://example.com")
  ∧ store (Delete_alpha "!JJJJJ" key_J world_one).2
    = delete "!JJJJJ" (store world_one).
Proof.
  apply (X16_delete_alpha "!JJJJJ" "https://example.com" key_J "" ["0"]
           world_one); vm_compute; (reflexivity || discriminate).
Defined.

(** X17. A record written by the Create of release 1.0.0-alpha.1 has no
    counter, and release 1.1.0 does not repair it: Stats with the right key
    answers 500 (failed to get statistics), with a wrong non-empty key 401,
    and Delete with the right key still removes it. *)
Theorem X17_alpha_record_has_no_statistics (url : string) (w w' : World)
    (slug key wrong : string) :
  Create_alpha url w = (JSON [("slug", slug); ("key", key)], w') →
  store w !! slug = None →
  wrong ≠ "" → wrong ≠ key →
  (Stats slug key w').1 = Error 500 "failed to get statistics"
  ∧ store (Stats slug key w').2 = store w'
  ∧ (Stats slug wrong w').1 = Error 401 "Unauthorized"
  ∧ (Delete slug key w').1 = SendStatus 200
  ∧ store (Delete slug key w').2 = store w.
Proof.
  intros H Hfresh Hw Hne.
  assert (key ≠ "" ∧ store w' = <[slug := [url; key]]> (store w))
    as [Hk Hst].
  { revert H. unfold Create_alpha. run_monad. case_bool_decide; [done|].
    destruct (ValidateUrl url); [|done]. cbn [negb].
    rewrite RandStr_spec. case_decide as H5; [|done].
    rewrite RandStr_spec. cbn [entropy]. case_decide as H64; [|done].
    unfold Do. rewrite serve_RPUSH. cbn [ReplyError store].
    intros [= <- <- <-]. fold (next_slug (entropy w)) in *.
    rewrite Hfresh. split; [|done].
    intros E. apply (f_equal GoString.len) in E.
    rewrite len_of_bytes, length_fmap, length_take, Nat.min_l in E by done.
    discriminate E. }
  destruct (Create_alpha_record _ _ _ _ _ H Hfresh) as (Hl & Hu & Hs).
  rewrite !Stats_spec, Delete_spec, !(bool_decide_eq_false_2 _ Hs),
    !(bool_decide_eq_false_2 _ Hk), (bool_decide_eq_false_2 _ Hw).
  unfold field. rewrite Hl. cbn [mbind option_bind lookup list_lookup].
  rewrite (bool_decide_eq_false_2 _ Hu).
  rewrite !(bool_decide_eq_false_2 (key ≠ key)) by auto.
  rewrite bool_decide_eq_true_2 by auto.
  cbn [fst snd after_cmds store]. repeat (split; [done|]).
  rewrite Hst. by apply delete_insert_id.
Qed.

Lemma X17_alpha_record_has_no_statistics_witness :
  (Stats "!JJJJJ" key_J
     (Create_alpha "https://example.com" (boot tape_a)).2).1
  = Error 500 "failed to get statistics"
  ∧ store (Stats "!JJJJJ" key_J
             (Create_alpha "https://example.com" (boot tape_a)).2).2
    = store (Create_alpha "https://example.com" (boot tape_a)).2
  ∧ (Stats "!JJJJJ" "wrong"
       (Create_alpha "https://example.com" (boot tape_a)).2).1
    = Error 401 "Unauthorized"
  ∧ (Delete "!JJJJJ" key_J
       (Create_alpha "https://example.com" (boot tape_a)).2).1
    = SendStatus 200
  ∧ store (Delete "!JJJJJ" key_J
             (Create_alpha "https://example.com" (boot tape_a)).2).2
    = store (boot tape_a).
Proof.
  apply (X17_alpha_record_has_no_statistics "https://example.com"
           (boot tape_a) _ "!JJJJJ" key_J "wrong");
    vm_compute; (reflexivity || discriminate).
Defined.

(** ** Who can change a record *)

Lemma Delete_removes (slug key : string) (w : World) :
  store (Delete slug key w).2 ≠ store w →
  key ≠ "" ∧ field (store w) slug 1 = Some key
  ∧ (Delete slug key w).1 = SendStatus 200
  ∧ store (Delete slug key w).2 = delete slug (store w).
Proof.
  rewrite Delete_spec. case_bool_decide; [done|].
  case_bool_decide as Hk; [done|].
  destruct (field (store w) slug 0); [|done]. case_bool_decide; [done|].
  destruct (field (store w) slug 1) as [stored|]; [|done].
  case_bool_decide as Hne; [done|]. intros _.
  split; [done|]. split; [|done]. f_equal.
  by destruct (decide (stored = key)).
Qed.

(** X18. The target URL and the admin key of a record never change, and only
    the key removes it. Whatever happens next (any request, or a goroutine
    running), a record of the store either is still there, with every
    element it had still in place except perhaps the counter at position 2,
    or the event was a Delete of its slug with its own non-empty admin key,
    answered 200. *)
Theorem X18_record_changes_only_by_its_key (e : Event) (w : World)
    (slug : string) (l : list string) :
  store w !! slug = Some l →
  (∃ l', store (step e w).2 !! slug = Some l'
         ∧ (∀ i v, i ≠ 2%nat → l !! i = Some v → l' !! i = Some v)
         ∧ (length l ≤ length l')%nat)
  ∨ (∃ key, e = Incoming (ReqDelete slug key) ∧ key ≠ ""
            ∧ l !! 1%nat = Some key
            ∧ (step e w).1 = Some (SendStatus 200)
            ∧ store (step e w).2 !! slug = None).
Proof.
  intros Hl.
  assert (∀ w', store w' = store w →
            ∃ l', store w' !! slug = Some l'
                  ∧ (∀ i v, i ≠ 2%nat → l !! i = Some v → l' !! i = Some v)
                  ∧ (length l ≤ length l')%nat) as Hsame.
  { intros w' ->. by exists l. }
  destruct e as [[url|s|s key|s key]|]; cbn [step handle];
    unfold mbind, M_bind, mret, M_ret.
  - left. destruct (Create url w) as [resp w'] eqn:H. cbn [snd].
    destruct (Create_extends _ _ _ _ H slug l Hl) as [l' Hl'].
    exists (l ++ l'). split; [done|]. rewrite length_app.
    split; [|lia]. intros i v _. apply lookup_app_l_Some.
  - left. apply Hsame. pose proof (Resolve_store s w) as H.
    by destruct (Resolve s w).
  - left. apply Hsame. pose proof (Stats_store s key w) as H.
    by destruct (Stats s key w).
  - destruct (decide (store (Delete s key w).2 = store w)) as [E|E].
    { left. apply Hsame. by destruct (Delete s key w). }
    apply Delete_removes in E as (Hk & Hf & Hr & Hst).
    destruct (Delete s key w) as [resp w']. cbn [fst snd] in *. subst resp.
    destruct (decide (slug = s)) as [->|Hne].
    + right. exists key. unfold field in Hf. rewrite Hl in Hf. cbn in Hf.
      rewrite Hst, lookup_delete_eq. done.
    + left. exists l. by rewrite Hst, lookup_delete_ne.
  - left. pose proof (run_goroutine_store w) as H.
    destruct (run_goroutine w) as [[] w']. cbn [snd] in *.
    destruct H as [E|(k & l0 & new & Hl0 & Hlen & ->)]; [by apply Hsame|].
    destruct (decide (slug = k)) as [->|Hne].
    + rewrite lookup_insert_eq. rewrite Hl in Hl0. injection Hl0 as ->.
      exists (<[2%nat := new]> l0). rewrite length_insert.
      split; [done|]. split; [|done].
      intros i v Hi Hv. by rewrite list_lookup_insert_ne.
    + exists l. by rewrite lookup_insert_ne.
Qed.

Lemma X18_record_changes_only_by_its_key_witness :
  (∃ l', store (step Scheduled (Resolve "!JJJJJ" world_one).2).2 !! "!JJJJJ"
         = Some l'
         ∧ (∀ i v, i ≠ 2%nat →
              ["https://example.com"; key_J; "0"] !! i = Some v →
              l' !! i = Some v)
         ∧ (length ["https://example.com"; key_J; "0"] ≤ length l')%nat)
  ∨ (∃ key, Scheduled = Incoming (ReqDelete "!JJJJJ" key) ∧ key ≠ ""
            ∧ ["https://example.com"; key_J; "0"] !! 1%nat = Some key
            ∧ (step Scheduled (Resolve "!JJJJJ" world_one).2).1
              = Some (SendStatus 200)
            ∧ store (step Scheduled (Resolve "!JJJJJ" world_one).2).2
                !! "!JJJJJ" = None).
Proof.
  apply (X18_record_changes_only_by_its_key Scheduled
           (Resolve "!JJJJJ" world_one).2 "!JJJJJ"
           ["https://example.com"; key_J; "0"]).
  vm_compute. reflexivity.
Defined.

(** ** The goroutine, interleaved *)

(** The goroutine body is its two halves run one after the other. *)
Lemma increment_split (slug : string) (w : World) :
  increment slug w
  = (v ← increment_read slug;
     if v is Some valint then increment_write slug valint else mret tt) w.
Proof.
  unfold increment, increment_read, increment_write. run_monad.
  destruct (Do (LINDEX slug 2) w) as [r w1].
  destruct (ToString r) as [val [e|]]; [done|].
  by destruct (GoInt.Atoi val) as [valint e].
Qed.

Lemma increment_read_spec (slug : string) (w : World) :
  increment_read slug w
  = match field (store w) slug 2 with
    | Some val => (Some (GoInt.Atoi val).1,
                   after_cmds [LINDEX slug 2] (store w) w)
    | None =>
        (None,
         mkWorld (store w) (entropy w) (trace w ++ [LINDEX slug 2])
           (logged w ++ ["Failed to get clicks counter for" +:+ slug])
           (spawned w))
    end.
Proof.
  unfold increment_read. run_monad.
  rewrite Do_LINDEX by done. change (Z.to_nat 2) with 2%nat.
  destruct (field (store w) slug 2) as [val|]; cbn [from_option ToString];
    [|done].
  by destruct (GoInt.Atoi val).
Qed.

Lemma increment_write_spec (slug : string) (valint : Z) (w : World) :
  increment_write slug valint w
  = let new := GoInt.Sprint (GoInt.wrap (valint + 1)) in
    match store w !! slug with
    | Some l =>
        if decide (2 < length l)%nat then
          (tt, after_cmds [LSET slug 2 new]
                 (<[slug := <[2%nat := new]> l]> (store w)) w)
        else
          (tt, mkWorld (store w) (entropy w) (trace w ++ [LSET slug 2 new])
                 (logged w ++ ["Failed to increment counter for" +:+ slug])
                 (spawned w))
    | None =>
        (tt, mkWorld (store w) (entropy w) (trace w ++ [LSET slug 2 new])
               (logged w ++ ["Failed to increment counter for" +:+ slug])
               (spawned w))
    end.
Proof.
  unfold increment_write. run_monad. cbn zeta.
  destruct (store w !! slug) as [l|] eqn:Hl.
  - case_decide as Hlen.
    + by rewrite (Do_LSET _ _ l).
    + unfold Do. cbn [serve]. rewrite Hl.
      rewrite list_offset_nonneg by done. change (Z.to_nat 2) with 2%nat.
      by case_decide.
  - unfold Do. cbn [serve]. by rewrite Hl.
Qed.

(** X19. Updates get lost. When the goroutines of two Resolves of the same
    slug both read the counter before either writes it, the counter of a
    record that held the numeral of [c] ends at [c + 1], not [c + 2]: one
    of the two clicks is not counted. *)
Theorem X19_interleaved_goroutines_lose_a_click (slug : string) (c : Z)
    (l : list string) (w : World) :
  store w !! slug = Some l → l !! 2%nat = Some (GoInt.Sprint c) →
  0 ≤ c < GoInt.max_int →
  ∃ a b w1 w2 w3 w4,
    increment_read slug w = (Some a, w1)
    ∧ increment_read slug w1 = (Some b, w2)
    ∧ increment_write slug a w2 = (tt, w3)
    ∧ increment_write slug b w3 = (tt, w4)
    ∧ a = c ∧ b = c
    ∧ store w4 = <[slug := <[2%nat := GoInt.Sprint (c + 1)]> l]> (store w)
    ∧ sent w w4 = [LINDEX slug 2; LINDEX slug 2;
                   LSET slug 2 (GoInt.Sprint (c + 1));
                   LSET slug 2 (GoInt.Sprint (c + 1))].
Proof.
  intros Hl H2 Hc. pose proof (lookup_lt_Some _ _ _ H2) as Hlen.
  assert (field (store w) slug 2 = Some (GoInt.Sprint c)) as Hf
    by (unfold field; by rewrite Hl).
  assert (GoInt.Sprint (GoInt.wrap (c + 1)) = GoInt.Sprint (c + 1)) as Hw.
  { rewrite wrap_small; [done|].
    unfold GoInt.max_int, GoInt.min_int in *; lia. }
  eexists c, c, _, _, _, _.
  split. { rewrite increment_read_spec, Hf, Atoi_Sprint; [done|].
           unfold GoInt.max_int in *; lia. }
  split. { rewrite increment_read_spec. cbn [after_cmds store].
           rewrite Hf, Atoi_Sprint; [done|]. unfold GoInt.max_int in *; lia. }
  split. { rewrite increment_write_spec. cbn [after_cmds store].
           rewrite Hl, Hw. cbn zeta. by rewrite decide_True by done. }
  split. { rewrite increment_write_spec. cbn [after_cmds store].
           rewrite lookup_insert_eq, Hw. cbn zeta.
           by rewrite decide_True by (by rewrite length_insert). }
  split; [done|]. split; [done|]. cbn [after_cmds store trace]. split.
  - by rewrite insert_insert_eq, list_insert_insert_eq.
  - unfold sent, after_cmds. cbn [trace]. rewrite <- !app_assoc.
    by rewrite drop_app_length.
Qed.

Lemma X19_interleaved_goroutines_lose_a_click_witness :
  ∃ a b w1 w2 w3 w4,
    increment_read "!JJJJJ" world_one = (Some a, w1)
    ∧ increment_read "!JJJJJ" w1 = (Some b, w2)
    ∧ increment_write "!JJJJJ" a w2 = (tt, w3)
    ∧ increment_write "!JJJJJ" b w3 = (tt, w4)
    ∧ a = 0 ∧ b = 0
    ∧ store w4
      = <["!JJJJJ" := <[2%nat := GoInt.Sprint (0 + 1)]>
                        ["https://example.com"; key_J; "0"]]>
          (store world_one)
    ∧ sent world_one w4
      = [LINDEX "!JJJJJ" 2; LINDEX "!JJJJJ" 2;
         LSET "!JJJJJ" 2 (GoInt.Sprint (0 + 1));
         LSET "!JJJJJ" 2 (GoInt.Sprint (0 + 1))].
Proof.
  apply (X19_interleaved_goroutines_lose_a_click "!JJJJJ" 0
           ["https://example.com"; key_J; "0"] world_one).
  - vm_compute; reflexivity.
  - reflexivity.
  - unfold GoInt.max_int. lia.
Defined.

(** X20. A Delete between the two halves of the goroutine wins. When the
    goroutine has read the counter and the record is deleted with its admin
    key before the goroutine writes, the LSET fails on the absent key, the
    goroutine logs one line, and the record stays deleted. *)
Theorem X20_delete_between_read_and_write (slug url stored val : string)
    (rest : list string) (w : World) :
  store w !! slug = Some (url :: stored :: val :: rest) →
  record_ok slug (url :: stored :: val :: rest) = true →
  ∃ a w1 w2 w3,
    increment_read slug w = (Some a, w1)
    ∧ Delete slug stored w1 = (SendStatus 200, w2)
    ∧ increment_write slug a w2 = (tt, w3)
    ∧ store w3 = delete slug (store w)
    ∧ logged w3 = logged w ++ ["Failed to increment counter for" +:+ slug].
Proof.
  intros Hl Hok. pose proof (record_ok_inv _ _ _ _ Hok) as (Hs & Hu & Hk & _).
  eexists _, _, _, _.
  split. { rewrite increment_read_spec. unfold field. rewrite Hl. done. }
  split. { rewrite Delete_spec, (bool_decide_eq_false_2 _ Hs),
             (bool_decide_eq_false_2 _ Hk).
           unfold field. cbn [after_cmds store]. rewrite Hl.
           cbn [mbind option_bind lookup list_lookup].
           rewrite (bool_decide_eq_false_2 _ Hu).
           by rewrite bool_decide_eq_false_2 by auto. }
  split. { rewrite increment_write_spec. cbn [after_cmds store].
           by rewrite lookup_delete_eq. }
  done.
Qed.

Lemma X20_delete_between_read_and_write_witness :
  ∃ a w1 w2 w3,
    increment_read "!JJJJJ" world_one = (Some a, w1)
    ∧ Delete "!JJJJJ" key_J w1 = (SendStatus 200, w2)
    ∧ increment_write "!JJJJJ" a w2 = (tt, w3)
    ∧ store w3 = delete "!JJJJJ" (store world_one)
    ∧ logged w3
      = logged world_one ++ ["Failed to increment counter for" +:+ "!JJJJJ"].
Proof.
  apply (X20_delete_between_read_and_write "!JJJJJ" "https://example.com"
           key_J "0" [] world_one); vm_compute; reflexivity.
Defined.
